(** * email_system.py: addresses, messages and the send transform

    A shallow embedding of [src/email_system.py].

    - A Python [str] is a list of Unicode code points ([list N]).
    - A raised exception is a value of [exn]; a call that may raise
      returns a [result].
    - [Email] objects and the [list] objects their [recipients] attribute
      points to live in a store ([gmap loc object]): [prepare] writes to
      the object it is called on, [copy.deepcopy] and list displays
      allocate.
    - [datetime.datetime.now()] reads a clock that is part of the world.
    - In this first model an [EmailAddress] and a nested list are values.
      [Module Identity] models the sending service again with the identity
      of every such object, for the properties about what is copied and
      what is shared. *)

From Stdlib Require Import NArith ZArith Ascii String.
From stdpp Require Import base option list gmap.

Set Warnings "-clear-no-such-hyp".

Local Open Scope N_scope.

(** ** Python strings *)

Module PyStr.

Definition str := list N.

(** The code points of a literal of the source (all of them ASCII). *)
Definition u (s : string) : str :=
  (fun a => N_of_ascii a) <$> list_ascii_of_string s.

(** [str.isspace] on one code point, the set [str.strip()] removes:
    CPython's table of Unicode white space. *)
Definition isspace (c : N) : bool :=
  ((9 <=? c) && (c <=? 13)) || ((28 <=? c) && (c <=? 32))
  || (c =? 133) || (c =? 160) || (c =? 5760)
  || ((8192 <=? c) && (c <=? 8202))
  || (c =? 8232) || (c =? 8233) || (c =? 8239) || (c =? 8287)
  || (c =? 12288).

Fixpoint lstrip (s : str) : str :=
  match s with
  | [] => []
  | c :: s' => if isspace c then lstrip s' else s
  end.

Definition rstrip (s : str) : str := reverse (lstrip (reverse s)).

(** [s.strip()] *)
Definition strip (s : str) : str := rstrip (lstrip s).

(** [s.split(sep)] for a separator of one code point: the pieces between
    the occurrences of [sep], one more than there are occurrences. *)
Fixpoint split (sep : N) (s : str) : list str :=
  match s with
  | [] => [[]]
  | c :: s' =>
      if c =? sep then [] :: split sep s'
      else match split sep s' with
           | [] => [[c]]
           | w :: ws => (c :: w) :: ws
           end
  end.

(** [sep.join(parts)] *)
Fixpoint join (sep : str) (parts : list str) : str :=
  match parts with
  | [] => []
  | [p] => p
  | p :: ps => p ++ sep ++ join sep ps
  end.

(** [c in s] for a [c] of one code point. *)
Definition contains (c : N) (s : str) : bool := existsb (N.eqb c) s.

Fixpoint startswith (s p : str) {struct p} : bool :=
  match p, s with
  | [], _ => true
  | _ :: _, [] => false
  | a :: p', b :: s' => (a =? b) && startswith s' p'
  end.

(** [s.endswith(d)] *)
Definition endswith (s d : str) : bool := startswith (reverse s) (reverse d).

(** Truth value of a string: [bool(s)]. *)
Definition nonempty (s : str) : bool :=
  match s with [] => false | _ => true end.

Definition AT : N := 64.       (* "@" *)
Definition NL : N := 10.       (* "\n" *)
Definition SP : str := [32].   (* " " *)

(** A model of [str.lower] for strings of ASCII code points, where it
    maps A-Z to a-z and keeps every other code point. *)
Definition ascii_lower (s : str) : str :=
  (fun c => if (65 <=? c) && (c <=? 90) then c + 32 else c) <$> s.

End PyStr.
Import PyStr.

(** ** Exceptions *)

(** [AttributeError] is what attribute access on an object without the
    attribute raises; the model also gives it at a location that holds no
    object, which no Python program can reach. *)
Inductive exn := ValueError | TypeError | AttributeError.

(** [OutOfFuel] marks a loop cut short by the bound the model runs it
    with; it is shown below never to happen. *)
Inductive result (A : Type) :=
| Ok (a : A)
| Raise (e : exn)
| OutOfFuel.
Arguments Ok {A} a.
Arguments Raise {A} e.
Arguments OutOfFuel {A}.

(** ** class EmailAddress *)

Record EmailAddress := { _address : str }.

Definition VALID_DOMAINS : list str := [u ".com"; u ".ru"; u ".net"].

Section Address.

(** [str.lower] is Python's own: the Unicode case tables are not part of
    this repository, and nothing below depends on what they hold. *)
Variable lower : str -> str.

(** [_normalize]: [address.strip().lower()] *)
Definition _normalize (address : str) : str := lower (strip address).

(** [_validate], on the normalized string. *)
Definition _validate (addr : str) : result unit :=
  if negb (contains AT addr) then Raise ValueError
  else if negb (existsb (endswith addr) VALID_DOMAINS) then Raise ValueError
  else Ok tt.

(** [EmailAddress.__init__] *)
Definition EmailAddress_init (address : str) : result EmailAddress :=
  let a := _normalize address in
  match _validate a with
  | Ok _ => Ok {| _address := a |}
  | Raise e => Raise e
  | OutOfFuel => OutOfFuel
  end.

End Address.

(** The [masked] property. Unpacking [split("@")] into two names raises
    [ValueError] unless there are exactly two pieces. *)
Definition masked (a : EmailAddress) : result str :=
  match split AT (_address a) with
  | [local_part; domain] =>
      let masked_local := take 2 local_part ++ u "***" in
      Ok (masked_local ++ u "@" ++ domain)
  | _ => Raise ValueError
  end.

(** ** Values, objects and the world *)

Inductive Status := DRAFT | READY | SENT | FAILED | INVALID.

Global Instance Status_eq_dec : EqDecision Status.
Proof. solve_decision. Defined.

(** What a caller can pass where an address or a list of addresses is
    expected.  [EmailAddress] instances are never written to after
    [__init__], and the other values are immutable or, for a nested list,
    taken by value. *)
#[warnings="-register-all"]
Inductive pyval :=
| PAddr (a : EmailAddress)
| PNone
| PBool (b : bool)
| PInt (z : Z)
| PStr (s : str)
| PList (items : list pyval)
| PTuple (items : list pyval).

(** [isinstance(v, EmailAddress)] *)
Definition is_EmailAddress (v : pyval) : bool :=
  match v with PAddr _ => true | _ => false end.

(** [bool(v)]: [EmailAddress] defines neither [__bool__] nor [__len__], so
    its instances are true. *)
Definition truthy (v : pyval) : bool :=
  match v with
  | PAddr _ => true
  | PNone => false
  | PBool b => b
  | PInt z => negb (z =? 0)%Z
  | PStr s => nonempty s
  | PList items | PTuple items => match items with [] => false | _ => true end
  end.

Abbreviation loc := positive.

(** An [Email] instance after [__post_init__]: [recipients] refers to a
    list object. *)
Record Email := {
  subject : str;
  body : str;
  sender : pyval;
  recipients : loc;
  date : Z;
  short_body : str;
  status : Status
}.

Definition set_subject (v : str) (e : Email) : Email :=
  {| subject := v; body := body e; sender := sender e; recipients := recipients e;
     date := date e; short_body := short_body e; status := status e |}.
Definition set_body (v : str) (e : Email) : Email :=
  {| subject := subject e; body := v; sender := sender e; recipients := recipients e;
     date := date e; short_body := short_body e; status := status e |}.
Definition set_recipients (v : loc) (e : Email) : Email :=
  {| subject := subject e; body := body e; sender := sender e; recipients := v;
     date := date e; short_body := short_body e; status := status e |}.
Definition set_date (v : Z) (e : Email) : Email :=
  {| subject := subject e; body := body e; sender := sender e; recipients := recipients e;
     date := v; short_body := short_body e; status := status e |}.
Definition set_short_body (v : str) (e : Email) : Email :=
  {| subject := subject e; body := body e; sender := sender e; recipients := recipients e;
     date := date e; short_body := v; status := status e |}.
Definition set_status (v : Status) (e : Email) : Email :=
  {| subject := subject e; body := body e; sender := sender e; recipients := recipients e;
     date := date e; short_body := short_body e; status := v |}.

Inductive object :=
| OEmail (e : Email)
| OList (items : list pyval).

(** The store of objects, and the clock [datetime.datetime.now()] reads:
    the [ticks]-th reading is [clock ticks]. *)
Record world := {
  heap : gmap loc object;
  clock : nat -> Z;
  ticks : nat
}.

Definition with_heap (h : gmap loc object) (w : world) : world :=
  {| heap := h; clock := clock w; ticks := ticks w |}.

(** ** Computations on the world *)

Definition M (A : Type) : Type := world -> result A * world.

Definition ret {A} (a : A) : M A := fun w => (Ok a, w).
Definition raise {A} (e : exn) : M A := fun w => (Raise e, w).
Definition bind {A B} (m : M A) (k : A -> M B) : M B :=
  fun w => match m w with
           | (Ok a, w') => k a w'
           | (Raise e, w') => (Raise e, w')
           | (OutOfFuel, w') => (OutOfFuel, w')
           end.

Notation "'let*' x ':=' m 'in' k" := (bind m (fun x => k))
  (at level 10, x name, m at level 100, k at level 200).

(** A new object at a location not in use. *)
Definition alloc (o : object) : M loc :=
  fun w => let l := fresh (dom (heap w)) in (Ok l, with_heap (<[l := o]> (heap w)) w).

(** Reading an [Email] instance, and its list of recipients.  Anything
    else at the location has not the attributes asked for. *)
Definition get_email (l : loc) : M Email :=
  fun w => match heap w !! l with
           | Some (OEmail e) => (Ok e, w)
           | _ => (Raise AttributeError, w)
           end.

Definition get_list (l : loc) : M (list pyval) :=
  fun w => match heap w !! l with
           | Some (OList items) => (Ok items, w)
           | _ => (Raise AttributeError, w)
           end.

(** Attribute assignment [self.x = v] on the [Email] at [l]. *)
Definition setattr (l : loc) (f : Email -> Email) : M unit :=
  fun w => match heap w !! l with
           | Some (OEmail e) => (Ok tt, with_heap (<[l := OEmail (f e)]> (heap w)) w)
           | _ => (Raise AttributeError, w)
           end.

(** [datetime.datetime.now()] *)
Definition now : M Z :=
  fun w => (Ok (clock w (ticks w)),
            {| heap := heap w; clock := clock w; ticks := S (ticks w) |}).

(** ** class Email *)

(** [_clean_text]: the lines of [text], stripped, the empty ones dropped,
    joined by one space. *)
Definition _clean_text (text : str) : str :=
  join SP (filter (fun line => nonempty line = true) (strip <$> split NL text)).

(** The constructor: the dataclass [__init__] followed by [__post_init__].
    [date] defaults to a reading of the clock, taken before
    [__post_init__] runs.  The instance itself is allocated once
    [__post_init__] has passed: when it raises, the instance the real
    [__init__] was filling is unreachable. *)
Definition Email_init (subject body : str) (sender recipients : pyval)
    (date : option Z) : M loc :=
  let* d := match date with Some d => ret d | None => now end in
  let* rl :=
    match recipients with
    | PAddr a => alloc (OList [PAddr a])
    | PList items => alloc (OList items)
    | _ => raise TypeError
    end in
  alloc (OEmail {| subject := subject; body := body; sender := sender;
                   recipients := rl; date := d; short_body := [];
                   status := DRAFT |}).

(** [_add_short_body] *)
Definition _add_short_body (self : loc) : M unit :=
  let* e := get_email self in
  if negb (nonempty (body e)) then setattr self (set_short_body [])
  else
    let cleaned_body := _clean_text (body e) in
    if (length cleaned_body <=? 50)%nat
    then setattr self (set_short_body cleaned_body)
    else setattr self (set_short_body (take 47 cleaned_body ++ u "...")).

(** The condition of [prepare], with the short circuit of [and]: the list
    of recipients is read only when the first three operands are true. *)
Definition ready_condition (self : loc) : M bool :=
  let* e := get_email self in
  if negb (nonempty (subject e)) then ret false
  else if negb (nonempty (body e)) then ret false
  else if negb (truthy (sender e)) then ret false
  else
    let* items := get_list (recipients e) in
    match items with
    | [] => ret false
    | _ => ret (forallb is_EmailAddress items)
    end.

(** [prepare] *)
Definition prepare (self : loc) : M unit :=
  let* e := get_email self in
  let* _ := setattr self (set_subject (_clean_text (subject e))) in
  let* e := get_email self in
  let* _ := setattr self (set_body (_clean_text (body e))) in
  let* _ := _add_short_body self in
  let* ready := ready_condition self in
  if ready then setattr self (set_status READY)
  else setattr self (set_status INVALID).

(** ** class EmailService *)

(** [copy.deepcopy(email)]: a new [Email] instance and a new list object
    for its [recipients]; the strings, the date, the status and the
    addresses are immutable values in this model. *)
Definition deepcopy (x : loc) : M loc :=
  let* e := get_email x in
  let* y := alloc (OEmail e) in
  let* items := get_list (recipients e) in
  let* rl := alloc (OList items) in
  let* _ := setattr y (set_recipients rl) in
  ret y.

(** The body of the loop of [send_email], for one [recipient]. *)
Definition send_one (email : loc) (recipient : pyval) : M loc :=
  let* email_copy := deepcopy email in
  let* rl := alloc (OList [recipient]) in
  let* _ := setattr email_copy (set_recipients rl) in
  let* t := now in
  let* _ := setattr email_copy (set_date t) in
  let* c := get_email email_copy in
  let* _ := if decide (status c = READY)
            then setattr email_copy (set_status SENT)
            else setattr email_copy (set_status FAILED) in
  ret email_copy.

(** [for recipient in email.recipients]: the iterator holds the list object
    [rl] and an index [i], and reads the list as it is at each step.
    [fuel] bounds the number of steps. *)
Fixpoint send_loop (fuel : nat) (email rl : loc) (i : nat)
    (sent_emails : list loc) : M (list loc) :=
  match fuel with
  | O => fun w => (OutOfFuel, w)
  | S fuel' =>
      let* items := get_list rl in
      match items !! i with
      | None => ret sent_emails
      | Some recipient =>
          let* email_copy := send_one email recipient in
          send_loop fuel' email rl (S i) (sent_emails ++ [email_copy])
      end
  end.

(** [EmailService.send_email]; the loop is given one step more than the
    list has elements when the loop starts. *)
Definition send_email (email : loc) : M (list loc) :=
  let* e := get_email email in
  let* items := get_list (recipients e) in
  send_loop (S (length items)) email (recipients e) 0 [].

(** ** Predicates used in the statements *)

(** A string that does not start with white space, and one that neither
    starts nor ends with it: [strip] keeps the latter as it is. *)
Definition head_ok (s : str) : Prop :=
  match s with [] => True | c :: _ => isspace c = false end.

Definition trimmed (s : str) : Prop := head_ok s /\ head_ok (reverse s).

(** The pieces [_clean_text] joins. *)
Definition clean_lines (t : str) : list str :=
  filter (fun line => nonempty line = true) (strip <$> split NL t).

(** The suffix rule and the two ways [_validate] rejects a normalized
    string. *)
Definition valid_suffix (a : str) : Prop :=
  exists d, d ∈ VALID_DOMAINS /\ exists p, a = p ++ d.

Definition rejected (a : str) : Prop := AT ∉ a \/ ~ valid_suffix a.

(** [l] holds an [Email] instance [e] whose [recipients] is the list object
    with elements [items]. *)
Definition email_at (w : world) (l : loc) (e : Email) (items : list pyval) : Prop :=
  heap w !! l = Some (OEmail e) /\ heap w !! recipients e = Some (OList items).

(** The list [__post_init__] stores for an argument it accepts. *)
Definition normalized (recipients : pyval) : option (list pyval) :=
  match recipients with
  | PAddr a => Some [PAddr a]
  | PList items => Some items
  | _ => None
  end.

(** [isinstance(v, list)] *)
Definition is_list (v : pyval) : bool :=
  match v with PList _ => true | _ => false end.

(** The shapes of [recipients] the specification names: one address, or a
    sequence of addresses. *)
Definition address_or_addresses (v : pyval) : bool :=
  match v with
  | PAddr _ => true
  | PList items | PTuple items => forallb is_EmailAddress items
  | _ => false
  end.

(** The value of the condition of [prepare]. *)
Definition ready (e : Email) (items : list pyval) : bool :=
  nonempty (subject e) && nonempty (body e) && truthy (sender e)
  && match items with [] => false | _ => forallb is_EmailAddress items end.

(** The preview [_add_short_body] stores for a body [b]. *)
Definition short_of (b : str) : str :=
  if negb (nonempty b) then []
  else if (length (_clean_text b) <=? 50)%nat then _clean_text b
       else take 47 (_clean_text b) ++ u "...".

(** The instance [prepare] leaves behind. *)
Definition prepared (e : Email) (items : list pyval) : Email :=
  let e1 := set_body (_clean_text (body e)) (set_subject (_clean_text (subject e)) e) in
  let e2 := set_short_body (short_of (body e1)) e1 in
  set_status (if ready e2 items then READY else INVALID) e2.

(** The copy [send_email] makes of [e] for one recipient: [rl] is its new
    list object and [t] the reading of the clock. *)
Definition sent_copy (e : Email) (rl : loc) (t : Z) : Email :=
  {| subject := subject e; body := body e; sender := sender e;
     recipients := rl; date := t; short_body := short_body e;
     status := if decide (status e = READY) then SENT else FAILED |}.

(** What a run of the loop of [send_email] leaves in the store [h']: for
    each recipient in turn a copy [c] with a list object [rl] of its own,
    both outside [D] and outside what the copies before it use; [n] counts
    the readings of the clock [clk]. *)
Inductive sent (e : Email) (clk : nat -> Z) (h' : gmap loc object) :
    gset loc -> nat -> list pyval -> list loc -> Prop :=
| sent_nil D n : sent e clk h' D n [] []
| sent_cons D n r rs c cs rl :
    c ∉ D -> rl ∉ D -> c <> rl ->
    h' !! c = Some (OEmail (sent_copy e rl (clk n))) ->
    h' !! rl = Some (OList [r]) ->
    sent e clk h' ({[c; rl]} ∪ D) (S n) rs cs ->
    sent e clk h' D n (r :: rs) (c :: cs).

(** A store with one message of two recipients, still a draft. *)
Definition addr (s : string) : pyval := PAddr {| _address := u s |}.

Definition items_ex : list pyval := [addr "b@example.com"; addr "c@example.ru"].

Definition email_ex : Email :=
  {| subject := u "  Hi  "; body := u " first " ++ [NL] ++ u " second ";
     sender := addr "a@example.com"; recipients := 1%positive; date := 0%Z;
     short_body := []; status := DRAFT |}.

Definition world_ex : world :=
  {| heap := <[2%positive := OEmail email_ex]> (<[1%positive := OList items_ex]> ∅);
     clock := fun n => Z.of_nat n; ticks := 1 |}.

(** ** The life of a message *)

(** What a caller can do: make a message, prepare one, send one. *)
Inductive op :=
| New (s b : str) (sndr rcp : pyval) (dt : option Z)
| Prepare (l : loc)
| Send (l : loc).

(** The world an operation leaves, whether it returns or raises. *)
Definition exec (o : op) (w : world) : world :=
  match o with
  | New s b sndr rcp dt => (Email_init s b sndr rcp dt w).2
  | Prepare l => (prepare l w).2
  | Send l => (send_email l w).2
  end.

(** The worlds a program reaches from an empty store. *)
Inductive reachable : world -> Prop :=
| reach_start clk : reachable {| heap := ∅; clock := clk; ticks := 0 |}
| reach_step w o : reachable w -> reachable (exec o w).

(** [transition w o s s']: operation [o], run in [w], takes a status [s] to
    [s']: either an instance that had status [s] has status [s'] after it,
    or [o] sends a message of status [s] and returns a copy of status
    [s']. *)
Inductive transition (w : world) : op -> Status -> Status -> Prop :=
| tr_kept o k e e' :
    heap w !! k = Some (OEmail e) ->
    heap (exec o w) !! k = Some (OEmail e') ->
    transition w o (status e) (status e')
| tr_copy l e cs c ec :
    heap w !! l = Some (OEmail e) ->
    (send_email l w).1 = Ok cs -> c ∈ cs ->
    heap (exec (Send l) w) !! c = Some (OEmail ec) ->
    transition w (Send l) (status e) (status ec).

(** The changes of status the specification lists. *)
Definition claimed (o : op) (s s' : Status) : bool :=
  bool_decide (s = s') ||
  match o, s, s' with
  | Prepare _, DRAFT, READY | Prepare _, DRAFT, INVALID => true
  | Send _, READY, SENT | Send _, READY, FAILED | Send _, INVALID, FAILED => true
  | _, _, _ => false
  end.

(** The changes of status the code makes to a message that is in the
    store: only [prepare] makes any. *)
Definition in_place (o : op) (s s' : Status) : bool :=
  bool_decide (s = s') ||
  match o, s, s' with
  | Prepare _, DRAFT, READY | Prepare _, DRAFT, INVALID => true
  | Prepare _, SENT, READY | Prepare _, FAILED, READY
  | Prepare _, FAILED, INVALID => true
  | _, _, _ => false
  end.

(** The status of a copy [send_email] returns, against the status of the
    message it was given. *)
Definition copied (s s' : Status) : bool :=
  match s, s' with
  | READY, SENT => true
  | DRAFT, FAILED | INVALID, FAILED | SENT, FAILED | FAILED, FAILED => true
  | _, _ => false
  end.

(** What holds of every message in a reachable world: its list of
    recipients is there, and a status other than [DRAFT] and [FAILED]
    records what [prepare] would find. *)
Definition inv_email (e : Email) (items : list pyval) : Prop :=
  match status e with
  | READY | SENT => status (prepared e items) = READY
  | INVALID => status (prepared e items) = INVALID
  | DRAFT | FAILED => True
  end.

Definition inv (w : world) : Prop :=
  forall k e, heap w !! k = Some (OEmail e) ->
    exists items, heap w !! recipients e = Some (OList items) /\ inv_email e items.

(** ** The rest of the classes: display and the logging service *)

(** The value of a member of [Status], which is what an f-string shows
    of a [StrEnum]. *)
Definition Status_value (s : Status) : str :=
  match s with
  | DRAFT => u "draft"
  | READY => u "ready"
  | SENT => u "sent"
  | FAILED => u "failed"
  | INVALID => u "invalid"
  end.

(** [v.address] and [v.masked] for any value [v]: only an [EmailAddress]
    has these attributes. *)
Definition address_of (v : pyval) : result str :=
  match v with
  | PAddr a => Ok (_address a)
  | _ => Raise AttributeError
  end.

Definition masked_of (v : pyval) : result str :=
  match v with
  | PAddr a => masked a
  | _ => Raise AttributeError
  end.

(** The generator [str(recipient.masked) for recipient in self.recipients]
    as [join] consumes it: the first failure is the one raised. *)
Fixpoint masked_all (items : list pyval) : result (list str) :=
  match items with
  | [] => Ok []
  | r :: rs =>
      match masked_of r with
      | Ok m =>
          match masked_all rs with
          | Ok ms => Ok (m :: ms)
          | Raise e => Raise e
          | OutOfFuel => OutOfFuel
          end
      | Raise e => Raise e
      | OutOfFuel => OutOfFuel
      end
  end.

(** [Email.__repr__]: the recipients are masked first, then the f-string
    is built, which masks the sender. *)
Definition Email_repr (self : loc) : M str :=
  let* e := get_email self in
  let* items := get_list (recipients e) in
  match masked_all items with
  | Ok ms =>
      let recipients_str := join (u ", ") ms in
      match masked_of (sender e) with
      | Ok sm =>
          ret (u "Email(subject='" ++ subject e ++ u "', sender=" ++ sm ++ u ", "
               ++ u "recipients=[" ++ recipients_str ++ u "], status="
               ++ Status_value (status e) ++ u ")")
      | Raise x => raise x
      | OutOfFuel => fun w => (OutOfFuel, w)
      end
  | Raise x => raise x
  | OutOfFuel => fun w => (OutOfFuel, w)
  end.

(** The logging service can also raise [IndexError], from
    [sent_email.recipients[0]]. *)
Inductive lexn := Exn (e : exn) | IndexError.

Inductive lresult (A : Type) :=
| LOk (a : A)
| LRaise (e : lexn)
| LOutOfFuel.
Arguments LOk {A} a.
Arguments LRaise {A} e.
Arguments LOutOfFuel {A}.

(** The text of one record, as the f-string evaluates it: the address of
    the sender, the address of the first recipient, the subject and the
    status. *)
Definition log_message (w : world) (sent_email : loc) : lresult str :=
  match heap w !! sent_email with
  | Some (OEmail e) =>
      match address_of (sender e) with
      | Ok from =>
          match heap w !! recipients e with
          | Some (OList (r :: _)) =>
              match address_of r with
              | Ok to =>
                  LOk (u "Email sent from " ++ from ++ u " to " ++ to ++ u ". "
                       ++ u "Subject: " ++ subject e ++ u ". "
                       ++ u "Status: " ++ Status_value (status e))
              | _ => LRaise (Exn AttributeError)
              end
          | Some (OList []) => LRaise IndexError
          | _ => LRaise (Exn AttributeError)
          end
      | _ => LRaise (Exn AttributeError)
      end
  | _ => LRaise (Exn AttributeError)
  end.

(** The loop over [sent_emails]: [log] is the sequence of messages handed
    to [logging.info] so far. *)
Fixpoint log_all (w : world) (sent_emails : list loc) (log : list str)
    : option lexn * list str :=
  match sent_emails with
  | [] => (None, log)
  | sent_email :: rest =>
      match log_message w sent_email with
      | LOk msg => log_all w rest (log ++ [msg])
      | LRaise x => (Some x, log)
      | LOutOfFuel => (None, log)
      end
  end.

(** [LoggingEmailService.send_email] *)
Definition LoggingEmailService_send_email (email : loc) (w : world)
    (log : list str) : lresult (list loc) * world * list str :=
  match send_email email w with
  | (Ok sent_emails, w') =>
      match log_all w' sent_emails log with
      | (None, log') => (LOk sent_emails, w', log')
      | (Some x, log') => (LRaise x, w', log')
      end
  | (Raise x, w') => (LRaise (Exn x), w', log)
  | (OutOfFuel, w') => (LOutOfFuel, w', log)
  end.

(** ** More predicates used in the statements *)

(** The number of occurrences of [c] in [s]. *)
Definition count (c : N) (s : list N) : nat :=
  length (filter (fun x => x = c) s).

(** A string with a character that is not white space. *)
Definition has_text (s : str) : Prop := exists c, c ∈ s /\ isspace c = false.

(** An [EmailAddress] with exactly one at-sign. *)
Definition one_at (v : pyval) : Prop :=
  exists a, v = PAddr a /\ count AT (_address a) = 1%nat.

(** The masked form of the address [l @ d]. *)
Definition mask (ld : str * str) : str := take 2 ld.1 ++ u "***" ++ u "@" ++ ld.2.

Definition at_address (ld : str * str) : pyval :=
  PAddr {| _address := ld.1 ++ AT :: ld.2 |}.

(** The record the logging service writes for one copy. *)
Definition log_line (from to subj : str) (st : Status) : str :=
  u "Email sent from " ++ from ++ u " to " ++ to ++ u ". "
  ++ u "Subject: " ++ subj ++ u ". " ++ u "Status: " ++ Status_value st.

(** ** The same service, with the identity of every object

    In the model above an [EmailAddress] and a nested list are values:
    enough wherever a property depends on what an object holds, not on
    which object it is.  What [send_email] copies and what it shares is a
    question of identity.  Here every [EmailAddress] instance and every
    list carries the location it lives at, [copy.deepcopy] makes new
    objects, and [[recipient]] holds the object it was given.  The code
    never writes to an [EmailAddress] or to a list once it is built, so a
    value carries, with the identity of an object, what the object holds.
    A structure that contains itself has no such value and is left
    out. *)

Module Identity.

#[warnings="-register-all"]
Inductive val :=
| VAddr (id : loc) (a : EmailAddress)
| VNone
| VBool (b : bool)
| VInt (z : Z)
| VStr (s : str)
| VList (id : loc) (items : list val)
| VTuple (items : list val).

(** What a value holds, identities forgotten: the value of the first
    model. *)
Fixpoint content (v : val) : pyval :=
  match v with
  | VAddr _ a => PAddr a
  | VNone => PNone
  | VBool b => PBool b
  | VInt z => PInt z
  | VStr s => PStr s
  | VList _ items => PList (map content items)
  | VTuple items => PTuple (map content items)
  end.

(** The objects a value is made of, and the lists among them. *)
Fixpoint ids (v : val) : list loc :=
  match v with
  | VAddr id _ => [id]
  | VList id items => id :: concat (map ids items)
  | VTuple items => concat (map ids items)
  | _ => []
  end.

Fixpoint list_ids (v : val) : list loc :=
  match v with
  | VList id items => id :: concat (map list_ids items)
  | VTuple items => concat (map list_ids items)
  | _ => []
  end.

Record Email := {
  subject : str;
  body : str;
  sender : val;
  recipients : loc;
  date : Z;
  short_body : str;
  status : Status
}.

Definition set_sender (v : val) (e : Email) : Email :=
  {| subject := subject e; body := body e; sender := v; recipients := recipients e;
     date := date e; short_body := short_body e; status := status e |}.
Definition set_recipients (v : loc) (e : Email) : Email :=
  {| subject := subject e; body := body e; sender := sender e; recipients := v;
     date := date e; short_body := short_body e; status := status e |}.
Definition set_date (v : Z) (e : Email) : Email :=
  {| subject := subject e; body := body e; sender := sender e; recipients := recipients e;
     date := v; short_body := short_body e; status := status e |}.
Definition set_status (v : Status) (e : Email) : Email :=
  {| subject := subject e; body := body e; sender := sender e; recipients := recipients e;
     date := date e; short_body := short_body e; status := v |}.

Inductive object :=
| OEmail (e : Email)
| OList (items : list val)
| OAddr (a : EmailAddress).

Record world := {
  heap : gmap loc object;
  clock : nat -> Z;
  ticks : nat
}.

Definition with_heap (h : gmap loc object) (w : world) : world :=
  {| heap := h; clock := clock w; ticks := ticks w |}.

Definition M (A : Type) : Type := world -> result A * world.

Definition ret {A} (a : A) : M A := fun w => (Ok a, w).
Definition raise {A} (e : exn) : M A := fun w => (Raise e, w).
Definition bind {A B} (m : M A) (k : A -> M B) : M B :=
  fun w => match m w with
           | (Ok a, w') => k a w'
           | (Raise e, w') => (Raise e, w')
           | (OutOfFuel, w') => (OutOfFuel, w')
           end.

Notation "'let!' x ':=' m 'in' k" := (bind m (fun x => k))
  (at level 10, x name, m at level 100, k at level 200).

Definition alloc (o : object) : M loc :=
  fun w => let l := fresh (dom (heap w)) in (Ok l, with_heap (<[l := o]> (heap w)) w).

Definition get_email (l : loc) : M Email :=
  fun w => match heap w !! l with
           | Some (OEmail e) => (Ok e, w)
           | _ => (Raise AttributeError, w)
           end.

Definition get_list (l : loc) : M (list val) :=
  fun w => match heap w !! l with
           | Some (OList items) => (Ok items, w)
           | _ => (Raise AttributeError, w)
           end.

Definition setattr (l : loc) (f : Email -> Email) : M unit :=
  fun w => match heap w !! l with
           | Some (OEmail e) => (Ok tt, with_heap (<[l := OEmail (f e)]> (heap w)) w)
           | _ => (Raise AttributeError, w)
           end.

Definition now : M Z :=
  fun w => (Ok (clock w (ticks w)),
            {| heap := heap w; clock := clock w; ticks := S (ticks w) |}).

(** [f] over a list from left to right, the state handed on. *)
Definition map_acc {S A B} (f : A -> S -> B * S) : list A -> S -> list B * S :=
  fix go l s :=
    match l with
    | [] => ([], s)
    | x :: l' =>
        let (y, s1) := f x s in
        let (ys, s2) := go l' s1 in
        (y :: ys, s2)
    end.

(** [copy.deepcopy] of a value.  [memo] maps the identity of an object
    that has been copied to the identity of its copy, so that an object
    met twice is copied once.  An [EmailAddress] is rebuilt as a new
    instance holding the same string; a list is copied into a new list,
    entered in [memo] before its elements are copied; atoms are returned
    as they are. *)
Fixpoint deepcopy_val (v : val) (st : gmap loc loc * world)
    : val * (gmap loc loc * world) :=
  match v with
  | VAddr id a =>
      match st.1 !! id with
      | Some id' => (VAddr id' a, st)
      | None =>
          let id' := fresh (dom (heap st.2)) in
          (VAddr id' a,
           (<[id := id']> st.1, with_heap (<[id' := OAddr a]> (heap st.2)) st.2))
      end
  | VList id items =>
      match st.1 !! id with
      | Some id' =>
          let (items', st') := map_acc deepcopy_val items st in
          (VList id' items', st')
      | None =>
          let id' := fresh (dom (heap st.2)) in
          let (items', st') :=
            map_acc deepcopy_val items
              (<[id := id']> st.1, with_heap (<[id' := OList []]> (heap st.2)) st.2) in
          (VList id' items',
           (st'.1, with_heap (<[id' := OList items']> (heap st'.2)) st'.2))
      end
  | VTuple items =>
      let (items', st') := map_acc deepcopy_val items st in
      (VTuple items', st')
  | _ => (v, st)
  end.

(** [copy.deepcopy(email)]: a new instance [y]; the attributes are copied
    in the order of the fields, of which the sender and the list of
    recipients are objects; the strings, the date and the status are
    kept.  No value names an [Email] instance, so the entry [deepcopy]
    makes in [memo] for the instance itself is never looked up and [memo]
    starts empty here. *)
Definition deepcopy (x : loc) : M loc :=
  let! e := get_email x in
  let! items := get_list (recipients e) in
  fun w =>
    let y := fresh (dom (heap w)) in
    let w1 := with_heap (<[y := OEmail e]> (heap w)) w in
    let (s', st1) := deepcopy_val (sender e) (∅, w1) in
    let rl := fresh (dom (heap st1.2)) in
    let w2 := with_heap (<[rl := OList []]> (heap st1.2)) st1.2 in
    let (items', st2) := map_acc deepcopy_val items (<[recipients e := rl]> st1.1, w2) in
    let h3 := <[rl := OList items']> (heap st2.2) in
    (Ok y,
     with_heap (<[y := OEmail (set_recipients rl (set_sender s' e))]> h3) st2.2).

(** The body of the loop of [send_email], as in the source. *)
Definition send_one (email : loc) (recipient : val) : M loc :=
  let! email_copy := deepcopy email in
  let! rl := alloc (OList [recipient]) in
  let! _ := setattr email_copy (set_recipients rl) in
  let! t := now in
  let! _ := setattr email_copy (set_date t) in
  let! c := get_email email_copy in
  let! _ := if decide (status c = READY)
            then setattr email_copy (set_status SENT)
            else setattr email_copy (set_status FAILED) in
  ret email_copy.

Fixpoint send_loop (fuel : nat) (email rl : loc) (i : nat)
    (sent_emails : list loc) : M (list loc) :=
  match fuel with
  | O => fun w => (OutOfFuel, w)
  | S fuel' =>
      let! items := get_list rl in
      match items !! i with
      | None => ret sent_emails
      | Some recipient =>
          let! email_copy := send_one email recipient in
          send_loop fuel' email rl (S i) (sent_emails ++ [email_copy])
      end
  end.

(** [EmailService.send_email] *)
Definition send_email (email : loc) : M (list loc) :=
  let! e := get_email email in
  let! items := get_list (recipients e) in
  send_loop (S (length items)) email (recipients e) 0 [].

(** The constructor: one address becomes a new list that holds it, a list
    is copied into a new list that holds the same objects. *)
Definition Email_init (subject body : str) (sender recipients : val)
    (date : option Z) : M loc :=
  let! d := match date with Some d => ret d | None => now end in
  let! rl :=
    match recipients with
    | VAddr id a => alloc (OList [VAddr id a])
    | VList _ items => alloc (OList items)
    | _ => raise TypeError
    end in
  alloc (OEmail {| subject := subject; body := body; sender := sender;
                   recipients := rl; date := d; short_body := [];
                   status := DRAFT |}).

(** [l] holds an [Email] instance [e] whose [recipients] is the list object
    with elements [items]. *)
Definition email_at (w : world) (l : loc) (e : Email) (items : list val) : Prop :=
  heap w !! l = Some (OEmail e) /\ heap w !! recipients e = Some (OList items).

(** The objects that can be written to through the [Email] at [c]: the
    instance, its list of recipients, and the lists among its sender and
    its recipients. *)
Definition mutable_objects (h : gmap loc object) (c : loc) : list loc :=
  match h !! c with
  | Some (OEmail e) =>
      c :: recipients e :: list_ids (sender e)
      ++ match h !! recipients e with
         | Some (OList items) => concat (map list_ids items)
         | _ => []
         end
  | _ => [c]
  end.

(** The objects that belong to the copy at [c] alone: the instance, its
    list of recipients and the objects of its sender. *)
Definition own_objects (h : gmap loc object) (c : loc) : list loc :=
  match h !! c with
  | Some (OEmail e) => c :: recipients e :: ids (sender e)
  | _ => [c]
  end.

(** The copy of [e] for one recipient: [s'] is the copy of the sender,
    [rl] the new list object and [t] the reading of the clock. *)
Definition sent_copy (e : Email) (s' : val) (rl : loc) (t : Z) : Email :=
  {| subject := subject e; body := body e; sender := s';
     recipients := rl; date := t; short_body := short_body e;
     status := if decide (status e = READY) then SENT else FAILED |}.

(** What a run of the loop leaves in the store [h']: for each recipient [r]
    in turn a copy [c] at a new location, with a list object [rl] of its
    own that holds [r] itself, and a sender [s'] that holds what the
    sender of [e] holds and is made of new objects; nothing of a copy is
    in [D], nor in what the copies before it own. *)
Inductive sent (e : Email) (clk : nat -> Z) (h' : gmap loc object) :
    gset loc -> nat -> list val -> list loc -> Prop :=
| sent_nil D n : sent e clk h' D n [] []
| sent_cons D n r rs c cs rl s' :
    c ∉ D -> rl ∉ D -> c <> rl ->
    content s' = content (sender e) ->
    (forall x, x ∈ ids s' -> (x ∉ D) /\ x <> c /\ x <> rl) ->
    h' !! c = Some (OEmail (sent_copy e s' rl (clk n))) ->
    h' !! rl = Some (OList [r]) ->
    sent e clk h' ({[c; rl]} ∪ list_to_set (ids s') ∪ D) (S n) rs cs ->
    sent e clk h' D n (r :: rs) (c :: cs).

(** [w'] is [w] with new objects, none of them an [Email]: what copying a
    value does to the store. *)
Definition grows (w w' : world) : Prop :=
  heap w ⊆ heap w' /\ clock w' = clock w /\ ticks w' = ticks w
  /\ (forall k ek, heap w' !! k = Some (OEmail ek) -> heap w !! k = Some (OEmail ek)).

(** Every copy entered in [memo] is an object of [h] that is not in [D]. *)
Definition memo_new (D : gset loc) (memo : gmap loc loc) (h : gmap loc object) : Prop :=
  forall i i', memo !! i = Some i' -> (i' ∉ D) /\ i' ∈ dom h.

(** What copying a value does: the store grows, the copy holds what the
    value holds, and it is made of objects that are new. *)
Definition copy_ok (D : gset loc) (v : val) : Prop :=
  forall memo (w : world) v' memo' (w' : world),
    D ⊆ dom (heap w) -> memo_new D memo (heap w) ->
    deepcopy_val v (memo, w) = (v', (memo', w')) ->
    grows w w' /\ memo_new D memo' (heap w')
    /\ content v' = content v
    /\ (forall x, x ∈ ids v' -> (x ∉ D) /\ x ∈ dom (heap w')).

(** A store with a message whose one recipient is a list: the constructor
    takes it. *)
Definition inner_list : val := VList 1%positive [VInt 1].

Definition world_inner : world :=
  {| heap := <[3%positive := OList [inner_list]]>
               (<[2%positive := OAddr {| _address := u "a@example.com" |}]>
                  (<[1%positive := OList [VInt 1]]> ∅));
     clock := fun n => Z.of_nat n; ticks := 0 |}.

Definition new_shared : M loc :=
  Email_init (u "Hi") (u "text")
    (VAddr 2%positive {| _address := u "a@example.com" |})
    (VList 3%positive [inner_list]) (Some 0%Z).

Definition world_shared : world := (new_shared world_inner).2.

Definition email_shared : Email :=
  {| subject := u "Hi"; body := u "text";
     sender := VAddr 2%positive {| _address := u "a@example.com" |};
     recipients := 4%positive; date := 0%Z; short_body := []; status := DRAFT |}.

End Identity.

(** * Properties *)

(** ** The tests of the repository, run on the model *)

Example masked_aleks :
  forall a, EmailAddress_init ascii_lower (u "  Aleks@Example.COM  ") = Ok a ->
            _address a = u "aleks@example.com" /\ masked a = Ok (u "al***@example.com").
Proof. intros a [= <-]. split; reflexivity. Qed.

Example init_invalid :
  EmailAddress_init ascii_lower (u "invalid") = Raise ValueError
  /\ EmailAddress_init ascii_lower (u "test@example.org") = Raise ValueError.
Proof. split; reflexivity. Qed.


Example clean_text_two_lines :
  _clean_text (u "  Hi  " ++ [NL] ++ u " there ") = u "Hi there".
Proof. reflexivity. Qed.

Example short_body_of_100 :
  short_of (replicate 100 65) = replicate 47 65 ++ u "...".
Proof. vm_compute. reflexivity. Qed.

Example short_body_of_50 : short_of (replicate 50 66) = replicate 50 66.
Proof. vm_compute. reflexivity. Qed.

(** [test_email_service]: two recipients, prepared, sent. *)
Example prepare_then_send :
  let run := (let* _ := prepare 2%positive in send_email 2%positive) world_ex in
  run.1 = Ok [3%positive; 6%positive]
  /\ heap run.2 !! 3%positive =
       Some (OEmail {| subject := u "Hi"; body := u "first second";
                       sender := addr "a@example.com"; recipients := 5%positive;
                       date := 1; short_body := u "first second"; status := SENT |})
  /\ heap run.2 !! 5%positive = Some (OList [addr "b@example.com"])
  /\ heap run.2 !! 6%positive =
       Some (OEmail {| subject := u "Hi"; body := u "first second";
                       sender := addr "a@example.com"; recipients := 8%positive;
                       date := 2; short_body := u "first second"; status := SENT |})
  /\ heap run.2 !! 8%positive = Some (OList [addr "c@example.ru"]).
Proof. vm_compute. repeat split. Qed.

(** ** Strings *)

Section StrFacts.

Implicit Types (s t p d : str) (c : N).

Lemma contains_spec c s : contains c s = true <-> c ∈ s.
Proof.
  unfold contains. rewrite existsb_exists. split.
  - intros (x & Hx & Heq). apply N.eqb_eq in Heq. subst x. by apply list_elem_of_In.
  - intros Hc. exists c. split; [by apply list_elem_of_In | apply N.eqb_refl].
Qed.

Lemma startswith_spec s p : startswith s p = true <-> exists t, s = p ++ t.
Proof.
  revert s. induction p as [|a p IH]; intros s; simpl.
  - split; [intros _; by exists s | done].
  - destruct s as [|b s]; simpl.
    + split; [done | intros [t Ht]; discriminate].
    + rewrite andb_true_iff, IH, N.eqb_eq. split.
      * intros [-> [t ->]]. by exists t.
      * intros [t [= -> ->]]. split; [done | by exists t].
Qed.

Lemma endswith_spec s d : endswith s d = true <-> exists p, s = p ++ d.
Proof.
  unfold endswith. rewrite startswith_spec. split.
  - intros [t Ht]. exists (reverse t).
    apply (inj reverse). by rewrite Ht, reverse_app, reverse_involutive.
  - intros [p ->]. exists (reverse p). by rewrite reverse_app.
Qed.

Lemma lstrip_head_ok s : head_ok (lstrip s).
Proof.
  induction s as [|c s IH]; simpl; [done|].
  destruct (isspace c) eqn:E; [done | simpl; done].
Qed.

Lemma lstrip_fix s : head_ok s -> lstrip s = s.
Proof. destruct s as [|c s]; simpl; [done | by intros ->]. Qed.

Lemma lstrip_app_fix s t : s <> [] -> head_ok s -> lstrip (s ++ t) = s ++ t.
Proof. destruct s as [|c s]; simpl; [done | by intros _ ->]. Qed.

Lemma lstrip_snoc s c : isspace c = false -> exists s', lstrip (s ++ [c]) = s' ++ [c].
Proof.
  intros Hc. induction s as [|a s [s' IH]]; simpl.
  - rewrite Hc. by exists [].
  - destruct (isspace a); [by exists s' | by exists (a :: s)].
Qed.

Lemma lstrip_sub s c : c ∈ lstrip s -> c ∈ s.
Proof.
  induction s as [|a s IH]; simpl; [done|].
  destruct (isspace a); [|done]. intros H. right. auto.
Qed.

Lemma strip_sub s c : c ∈ strip s -> c ∈ s.
Proof.
  unfold strip, rstrip. rewrite elem_of_reverse. intros H%lstrip_sub.
  rewrite elem_of_reverse in H. by apply lstrip_sub.
Qed.

Lemma trimmed_strip_fix s : trimmed s -> strip s = s.
Proof.
  intros [H1 H2]. unfold strip, rstrip.
  rewrite (lstrip_fix s H1), (lstrip_fix _ H2). apply reverse_involutive.
Qed.

Lemma strip_trimmed s : trimmed (strip s).
Proof.
  unfold trimmed, strip, rstrip. rewrite reverse_involutive. split.
  - pose proof (lstrip_head_ok s) as H. destruct (lstrip s) as [|c t]; [done|].
    simpl in H. rewrite reverse_cons.
    destruct (lstrip_snoc (reverse t) c H) as [s' ->].
    by rewrite reverse_app.
  - apply lstrip_head_ok.
Qed.

Lemma trimmed_app s t : s <> [] -> t <> [] -> head_ok s -> head_ok (reverse t) ->
  trimmed (s ++ t).
Proof.
  intros Hs Ht H1 H2. split.
  - destruct s; [done | exact H1].
  - rewrite reverse_app. destruct (reverse t) eqn:E; [|exact H2].
    apply (f_equal reverse) in E. rewrite reverse_involutive in E. done.
Qed.

Lemma head_ok_app s t : s <> [] -> head_ok s -> head_ok (s ++ t).
Proof. destruct s; [done | by simpl]. Qed.

Lemma reverse_nonnil s : s <> [] -> reverse s <> [].
Proof.
  intros Hs E. apply Hs. apply (f_equal reverse) in E.
  by rewrite reverse_involutive in E.
Qed.

Lemma split_nonnil c s : split c s <> [].
Proof.
  induction s as [|a s IH]; simpl; [done|].
  destruct (a =? c); [done|]. by destruct (split c s).
Qed.

Lemma split_no_sep c s p : p ∈ split c s -> c ∉ p.
Proof.
  revert p. induction s as [|a s IH]; simpl; intros p.
  - intros ->%list_elem_of_singleton. apply not_elem_of_nil.
  - destruct (N.eqb_spec a c) as [->|Hne].
    + intros [->|H]%elem_of_cons; [apply not_elem_of_nil | by apply IH].
    + destruct (split c s) as [|w ws] eqn:E.
      * intros ->%list_elem_of_singleton. intros [->|H]%elem_of_cons; [done|].
        by apply not_elem_of_nil in H.
      * intros [->|H]%elem_of_cons.
        -- intros [->|H]%elem_of_cons; [done|]. by apply (IH w); [left|].
        -- apply IH. by right.
Qed.

Lemma split_id c s : c ∉ s -> split c s = [s].
Proof.
  induction s as [|a s IH]; simpl; [done|].
  intros H. destruct (N.eqb_spec a c) as [->|Hne].
  - exfalso. apply H. by left.
  - rewrite IH; [done|]. intros Hc. apply H. by right.
Qed.

Lemma elem_of_join c sep (parts : list str) :
  c ∈ join sep parts -> c ∈ sep \/ exists p, p ∈ parts /\ c ∈ p.
Proof.
  induction parts as [|p ps IH]; simpl.
  - by intros H%not_elem_of_nil.
  - destruct ps as [|q ps].
    + intros H. right. exists p. split; [by left | done].
    + rewrite !elem_of_app. intros [H|[H|H]].
      * right. exists p. split; [by left | done].
      * by left.
      * destruct (IH H) as [?|(x & Hx & Hc)]; [by left|].
        right. exists x. split; [by right | done].
Qed.

Lemma join_trimmed (parts : list str) :
  Forall (fun p => p <> [] /\ trimmed p) parts ->
  trimmed (join SP parts) /\ (parts <> [] -> join SP parts <> []).
Proof.
  induction 1 as [|p ps [Hp [Hh Hl]] Hps [IHt IHn]].
  - split; [by split | done].
  - destruct ps as [|q ps]; [by split|].
    assert (Hj : join SP (q :: ps) <> []) by by apply IHn.
    change (join SP (p :: q :: ps)) with (p ++ SP ++ join SP (q :: ps)).
    split; [|by destruct p].
    apply trimmed_app; [done | done | done |].
    rewrite reverse_app. apply head_ok_app; [by apply reverse_nonnil | apply IHt].
Qed.

Lemma clean_lines_ok t : Forall (fun p => p <> [] /\ trimmed p) (clean_lines t).
Proof.
  apply Forall_forall. intros p [Hne Hin]%list_elem_of_filter.
  apply list_elem_of_fmap in Hin as (x & -> & _).
  split; [by destruct (strip x) | apply strip_trimmed].
Qed.

Lemma clean_trimmed t : trimmed (_clean_text t).
Proof. apply join_trimmed, clean_lines_ok. Qed.

Lemma clean_no_nl t : NL ∉ _clean_text t.
Proof.
  intros [H|(p & Hp & Hc)]%elem_of_join.
  - apply list_elem_of_singleton in H. discriminate.
  - apply list_elem_of_filter in Hp as [_ Hp].
    apply list_elem_of_fmap in Hp as (x & -> & Hx).
    apply strip_sub in Hc. by apply (split_no_sep NL t x).
Qed.

Lemma clean_fix s : NL ∉ s -> trimmed s -> _clean_text s = s.
Proof.
  intros Hnl Ht. unfold _clean_text. rewrite (split_id _ _ Hnl). simpl.
  rewrite (trimmed_strip_fix s Ht). destruct s as [|c s]; [done|].
  by rewrite filter_cons_True.
Qed.

(** Cleaning a cleaned string changes nothing. *)
Lemma clean_idem t : _clean_text (_clean_text t) = _clean_text t.
Proof. apply clean_fix; [apply clean_no_nl | apply clean_trimmed]. Qed.

End StrFacts.

(** ** The store *)

Implicit Types (w : world) (h : gmap loc object) (l : loc) (e : Email).

Lemma fresh_None h : h !! fresh (dom h) = None.
Proof. apply not_elem_of_dom, is_fresh. Qed.

Lemma fresh_ne h l : is_Some (h !! l) -> fresh (dom h) <> l.
Proof. intros [o Ho] <-. by rewrite fresh_None in Ho. Qed.

Lemma bind_Ok {A B} (m : M A) (k : A -> M B) w a w1 :
  m w = (Ok a, w1) -> bind m k w = k a w1.
Proof. unfold bind. by intros ->. Qed.

Lemma bind_assoc {A B C} (m : M A) (k1 : A -> M B) (k2 : B -> M C) w :
  bind (bind m k1) k2 w = bind m (fun a => bind (k1 a) k2) w.
Proof. unfold bind. destruct (m w) as [[a| |] w1]; [|done..]. done. Qed.

Lemma get_email_Ok w l e : heap w !! l = Some (OEmail e) -> get_email l w = (Ok e, w).
Proof. unfold get_email. by intros ->. Qed.

Lemma get_list_Ok w l items :
  heap w !! l = Some (OList items) -> get_list l w = (Ok items, w).
Proof. unfold get_list. by intros ->. Qed.

Lemma setattr_Ok w l e f :
  heap w !! l = Some (OEmail e) ->
  setattr l f w = (Ok tt, with_heap (<[l := OEmail (f e)]> (heap w)) w).
Proof. unfold setattr. by intros ->. Qed.

Lemma alloc_Ok o w :
  alloc o w = (Ok (fresh (dom (heap w))),
               with_heap (<[fresh (dom (heap w)) := o]> (heap w)) w).
Proof. done. Qed.

Lemma with_heap_heap h w : heap (with_heap h w) = h.
Proof. done. Qed.

Lemma with_heap_twice h h' w : with_heap h (with_heap h' w) = with_heap h w.
Proof. done. Qed.

(** One step of a computation: rewrite the first [bind] with the result of
    its first operand, a read or a write at a location whose content is
    known. *)
Ltac lookup_now :=
  rewrite ?with_heap_heap;
  first [ eassumption
        | apply lookup_insert_eq
        | rewrite lookup_insert_ne by done; lookup_now ].

Ltac mstep :=
  rewrite ?bind_assoc;
  erewrite bind_Ok;
  [| first [ apply get_email_Ok; lookup_now
           | apply get_list_Ok; lookup_now
           | apply setattr_Ok; lookup_now
           | apply alloc_Ok
           | reflexivity ] ].

Tactic Notation "mstep" "by" tactic3(t) :=
  rewrite ?bind_assoc; erewrite bind_Ok; [| t].

Lemma prepare_spec w l e items :
  email_at w l e items ->
  prepare l w = (Ok tt, with_heap (<[l := OEmail (prepared e items)]> (heap w)) w).
Proof.
  intros [He Hl].
  assert (Hne : l <> recipients e) by (intros E; rewrite <- E, He in Hl; discriminate).
  unfold prepare. do 4 mstep.
  rewrite !with_heap_twice, !with_heap_heap, !insert_insert_eq.
  set (e1 := set_body _ _).
  assert (Hadd : _add_short_body l (with_heap (<[l := OEmail e1]> (heap w)) w)
     = (Ok tt, with_heap (<[l := OEmail (set_short_body (short_of (body e1)) e1)]> (heap w)) w)).
  { unfold _add_short_body. mstep. unfold short_of.
    destruct (negb (nonempty (body e1))); [|destruct (_ <=? _)%nat];
      (erewrite setattr_Ok by lookup_now);
      by rewrite with_heap_twice, with_heap_heap, insert_insert_eq. }
  erewrite bind_Ok by exact Hadd.
  set (e2 := set_short_body _ _).
  assert (Hr : ready_condition l (with_heap (<[l := OEmail e2]> (heap w)) w)
     = (Ok (ready e2 items), with_heap (<[l := OEmail e2]> (heap w)) w)).
  { unfold ready_condition, ready. mstep.
    destruct (nonempty (subject e2)); [|done].
    destruct (nonempty (body e2)); [|done].
    destruct (truthy (sender e2)); [|done]. simpl.
    erewrite bind_Ok; [| apply get_list_Ok; rewrite with_heap_heap, lookup_insert_ne by done; exact Hl].
    by destruct items. }
  erewrite bind_Ok by exact Hr.
  change (prepared e items)
    with (set_status (if ready e2 items then READY else INVALID) e2).
  destruct (ready e2 items); (erewrite setattr_Ok by lookup_now);
    by rewrite with_heap_twice, with_heap_heap, insert_insert_eq.
Qed.

(** ** One turn of the loop of [send_email] *)

Lemma send_one_spec w l e items r :
  email_at w l e items ->
  exists y rl w',
    send_one l r w = (Ok y, w')
    /\ heap w ⊆ heap w'
    /\ (y ∉ dom (heap w)) /\ (rl ∉ dom (heap w)) /\ y <> rl
    /\ heap w' !! y = Some (OEmail (sent_copy e rl (clock w (ticks w))))
    /\ heap w' !! rl = Some (OList [r])
    /\ clock w' = clock w /\ ticks w' = S (ticks w)
    /\ (forall k ec, heap w' !! k = Some (OEmail ec) ->
          k = y \/ heap w !! k = Some (OEmail ec)).
Proof.
  intros [He Hl].
  destruct (send_one l r w) as [res wr] eqn:Hs. revert Hs.
  unfold send_one, deepcopy.
  mstep. mstep.
  set (y := fresh (dom (heap w))).
  assert (Hy : heap w !! y = None) by apply fresh_None.
  set (h1 := <[y := OEmail e]> (heap w)).
  assert (Hyr : y <> recipients e) by (apply fresh_ne; eauto).
  mstep by (apply get_list_Ok; rewrite with_heap_heap; unfold h1;
            rewrite lookup_insert_ne by done; exact Hl).
  mstep. rewrite with_heap_twice, with_heap_heap.
  set (r1 := fresh (dom h1)).
  assert (Hr1 : h1 !! r1 = None) by apply fresh_None.
  assert (Hr1y : r1 <> y).
  { apply fresh_ne. unfold h1. rewrite lookup_insert_eq. eauto. }
  set (h2 := <[r1 := OList items]> h1).
  assert (H2y : h2 !! y = Some (OEmail e)).
  { unfold h2, h1. rewrite lookup_insert_ne by done. apply lookup_insert_eq. }
  mstep by (apply setattr_Ok; rewrite with_heap_heap; exact H2y).
  rewrite with_heap_twice, with_heap_heap.
  mstep. mstep. rewrite with_heap_twice, with_heap_heap.
  set (h3 := <[y := OEmail (set_recipients r1 e)]> h2).
  set (r2 := fresh (dom h3)).
  assert (Hr2 : h3 !! r2 = None) by apply fresh_None.
  assert (Hr2y : r2 <> y).
  { apply fresh_ne. unfold h3. rewrite lookup_insert_eq. eauto. }
  assert (Hr2w : heap w !! r2 = None).
  { unfold h3, h2, h1 in Hr2.
    rewrite lookup_insert_ne in Hr2 by done.
    destruct (decide (r1 = r2)) as [E|E].
    - rewrite E, lookup_insert_eq in Hr2. discriminate.
    - by rewrite !lookup_insert_ne in Hr2 by done. }
  set (h4 := <[r2 := OList [r]]> h3).
  assert (H4y : h4 !! y = Some (OEmail (set_recipients r1 e))).
  { unfold h4, h3. rewrite lookup_insert_ne by done. apply lookup_insert_eq. }
  mstep by (apply setattr_Ok; rewrite with_heap_heap; exact H4y).
  rewrite with_heap_twice, with_heap_heap.
  mstep.
  mstep by (apply setattr_Ok; simpl; apply lookup_insert_eq).
  mstep by (apply get_email_Ok; simpl; apply lookup_insert_eq).
  cbn [heap clock ticks with_heap set_date set_recipients status].
  rewrite !insert_insert_eq.
  assert (Hr1w : heap w !! r1 = None).
  { unfold h1 in Hr1. by rewrite lookup_insert_ne in Hr1 by done. }
  assert (Hsub : forall o, heap w ⊆ <[y := o]> h4).
  { intros o. unfold h4, h3, h2, h1.
    repeat (apply insert_subseteq_r; [done|]). done. }
  unfold sent_copy.
  destruct (decide (status e = READY)) as [Hst|Hst];
    (mstep by (apply setattr_Ok; simpl; apply lookup_insert_eq));
    intros [= <- <-]; exists y, r2; eexists; (split; [reflexivity|]);
    cbn [heap clock ticks with_heap]; rewrite insert_insert_eq;
    (split; [apply Hsub|]);
    (split; [by apply not_elem_of_dom|]);
    (split; [by apply not_elem_of_dom|]);
    (split; [done|]);
    (split; [apply lookup_insert_eq|]);
    (split; [rewrite lookup_insert_ne by done; apply lookup_insert_eq|]);
    (split; [done|]); (split; [done|]);
    intros k ec Hk; (destruct (decide (k = y)) as [->|Hky]; [by left | right]);
    unfold h4, h3, h2, h1 in Hk;
    rewrite lookup_insert_ne in Hk by done;
    (destruct (decide (k = r2)) as [->|Hk2];
       [by rewrite lookup_insert_eq in Hk|]);
    rewrite lookup_insert_ne in Hk by done;
    rewrite lookup_insert_ne in Hk by done;
    (destruct (decide (k = r1)) as [->|Hk1];
       [by rewrite lookup_insert_eq in Hk|]);
    by rewrite !lookup_insert_ne in Hk by done.
Qed.

(** ** The loop of [send_email] *)

Lemma sent_anti e clk h' D D' n rs cs :
  D ⊆ D' -> sent e clk h' D' n rs cs -> sent e clk h' D n rs cs.
Proof.
  intros HD Hs. revert D HD.
  induction Hs as [|D' n r rs c cs rl Hc Hrl Hne Hhc Hhrl _ IH]; intros D0 HD.
  - constructor.
  - apply sent_cons with (rl := rl); [set_solver | set_solver | done | done | done |].
    apply IH. set_solver.
Qed.

Lemma email_at_weaken w w' l e items :
  heap w ⊆ heap w' -> email_at w l e items -> email_at w' l e items.
Proof. intros Hsub [He Hl]. split; by eapply lookup_weaken. Qed.

Lemma send_loop_spec l e items fuel : forall i acc w,
  email_at w l e items ->
  (i <= length items)%nat -> (length items < fuel + i)%nat ->
  exists cs w',
    send_loop fuel l (recipients e) i acc w = (Ok (acc ++ cs), w')
    /\ heap w ⊆ heap w'
    /\ clock w' = clock w /\ ticks w' = (ticks w + length cs)%nat
    /\ sent e (clock w) (heap w') (dom (heap w)) (ticks w) (drop i items) cs
    /\ (forall k ec, heap w' !! k = Some (OEmail ec) ->
          k ∈ cs \/ heap w !! k = Some (OEmail ec)).
Proof.
  induction fuel as [|fuel IH]; intros i acc w Hat Hi Hfuel; [lia|].
  destruct (send_loop (S fuel) l (recipients e) i acc w) as [res wr] eqn:Hs.
  revert Hs. cbn [send_loop]. pose proof Hat as [He Hl]. mstep.
  destruct (items !! i) as [r|] eqn:Hr.
  - destruct (send_one_spec w l e items r Hat)
      as (y & rl & w1 & Hone & Hsub & Hy & Hrl & Hne & Hhy & Hhrl & Hclk & Htk & Hnew).
    mstep by exact Hone.
    destruct (IH (S i) (acc ++ [y]) w1)
      as (cs & w' & Hloop & Hsub' & Hclk' & Htk' & Hsent & Hnew').
    { by eapply email_at_weaken. }
    { apply lookup_lt_Some in Hr. lia. }
    { lia. }
    rewrite Hloop. intros [= <- <-]. exists (y :: cs), w'.
    split; [by rewrite <- app_assoc|].
    split; [by etrans|].
    split; [congruence|].
    split; [simpl; lia|].
    split; [|intros k ec [Hk|Hk]%Hnew';
                [left; by right
                |destruct (Hnew k ec Hk) as [->|?]; [left; by left | by right]]].
    rewrite (drop_S _ _ _ Hr).
    apply sent_cons with (rl := rl); try done.
    + eapply lookup_weaken; [|exact Hsub']. exact Hhy.
    + eapply lookup_weaken; [|exact Hsub']. exact Hhrl.
    + rewrite Hclk, Htk in Hsent. eapply sent_anti; [|exact Hsent].
      apply subseteq_dom in Hsub.
      assert (y ∈ dom (heap w1)) by (apply elem_of_dom; eauto).
      assert (rl ∈ dom (heap w1)) by (apply elem_of_dom; eauto).
      set_solver.
  - intros [= <- <-]. exists [], w.
    split; [by rewrite app_nil_r|].
    split; [done|]. split; [done|]. split; [simpl; lia|].
    split; [|by right].
    apply lookup_ge_None in Hr. rewrite drop_ge by done. constructor.
Qed.

Lemma send_email_spec w l e items :
  email_at w l e items ->
  exists cs w',
    send_email l w = (Ok cs, w')
    /\ heap w ⊆ heap w'
    /\ clock w' = clock w /\ ticks w' = (ticks w + length cs)%nat
    /\ sent e (clock w) (heap w') (dom (heap w)) (ticks w) items cs
    /\ (forall k ec, heap w' !! k = Some (OEmail ec) ->
          k ∈ cs \/ heap w !! k = Some (OEmail ec)).
Proof.
  intros Hat. pose proof Hat as [He Hl].
  destruct (send_loop_spec l e items (S (length items)) 0 [] w Hat)
    as (cs & w' & Hloop & H); [lia | lia |].
  exists cs, w'. split; [|exact H].
  unfold send_email. do 2 mstep. exact Hloop.
Qed.

(** What [sent] says of the copies one by one. *)

Lemma sent_length e clk h' D n rs cs :
  sent e clk h' D n rs cs -> length cs = length rs.
Proof. induction 1; simpl; congruence. Qed.

Lemma sent_lookup e clk h' D n rs cs i c :
  sent e clk h' D n rs cs -> cs !! i = Some c ->
  exists r rl, rs !! i = Some r /\ (c ∉ D) /\ (rl ∉ D) /\ c <> rl
    /\ h' !! c = Some (OEmail (sent_copy e rl (clk (n + i)%nat)))
    /\ h' !! rl = Some (OList [r]).
Proof.
  intros Hs. revert i. induction Hs as [|D n r rs c0 cs rl Hc Hrl Hne Hhc Hhrl _ IH]; intros i Hi.
  - done.
  - destruct i as [|i]; simpl in Hi.
    + injection Hi as <-. exists r, rl. by rewrite Nat.add_0_r.
    + destruct (IH i Hi) as (r' & rl' & Hr' & Hc' & Hrl' & Hne' & Hhc' & Hhrl').
      exists r', rl'. rewrite Nat.add_succ_r. simpl in Hhc'.
      repeat split; try done; set_solver.
Qed.


(** ** send_email *)

(** C5: [send_email] raises nothing, and every copy it returns is [SENT]
    when the message it was given is [READY] and [FAILED] for any other
    status of that message. *)
Theorem send_email_status_policy w l e items :
  email_at w l e items ->
  exists cs w',
    send_email l w = (Ok cs, w')
    /\ forall c, c ∈ cs ->
         exists ec, heap w' !! c = Some (OEmail ec)
           /\ (status e = READY -> status ec = SENT)
           /\ (status e <> READY -> status ec = FAILED).
Proof.
  intros Hat.
  destruct (send_email_spec w l e items Hat) as (cs & w' & Hrun & _ & _ & _ & Hsent & _).
  exists cs, w'. split; [done|]. intros c [i Hi]%list_elem_of_lookup.
  destruct (sent_lookup _ _ _ _ _ _ _ _ _ Hsent Hi) as (r & rl & _ & _ & _ & _ & Hc & _).
  eexists. split; [exact Hc|]. simpl.
  destruct (decide (status e = READY)); split; done.
Qed.

Lemma send_email_status_policy_witness :
  exists cs w',
    send_email 2%positive world_ex = (Ok cs, w')
    /\ forall c, c ∈ cs ->
         exists ec, heap w' !! c = Some (OEmail ec)
           /\ (status email_ex = READY -> status ec = SENT)
           /\ (status email_ex <> READY -> status ec = FAILED).
Proof.
  apply (send_email_status_policy world_ex 2%positive email_ex items_ex).
  split; reflexivity.
Defined.

(** C6: [send_email] leaves the message it was given as it is, with its
    status, its date and its list of recipients, and every other object
    that was in the store. *)
Theorem send_email_frame w l e items :
  email_at w l e items ->
  exists cs w',
    send_email l w = (Ok cs, w')
    /\ heap w' !! l = Some (OEmail e)
    /\ heap w' !! recipients e = Some (OList items)
    /\ forall k o, heap w !! k = Some o -> heap w' !! k = Some o.
Proof.
  intros Hat.
  destruct (send_email_spec w l e items Hat) as (cs & w' & Hrun & Hsub & _).
  exists cs, w'. destruct Hat as [He Hl].
  split; [done|]. split; [by eapply lookup_weaken|].
  split; [by eapply lookup_weaken|].
  intros k o Hk. by eapply lookup_weaken.
Qed.

Lemma send_email_frame_witness :
  exists cs w',
    send_email 2%positive world_ex = (Ok cs, w')
    /\ heap w' !! 2%positive = Some (OEmail email_ex)
    /\ heap w' !! recipients email_ex = Some (OList items_ex)
    /\ forall k o, heap world_ex !! k = Some o -> heap w' !! k = Some o.
Proof.
  apply (send_email_frame world_ex 2%positive email_ex items_ex).
  split; reflexivity.
Defined.

(** ** prepare *)

Lemma short_of_clean b :
  short_of (_clean_text b) =
    if negb (nonempty (_clean_text b)) then []
    else if (length (_clean_text b) <=? 50)%nat then _clean_text b
         else take 47 (_clean_text b) ++ u "...".
Proof. unfold short_of. by rewrite clean_idem. Qed.

Lemma prepared_idem e items : prepared (prepared e items) items = prepared e items.
Proof.
  unfold prepared, ready. cbn [set_status set_short_body set_body set_subject
    subject body sender recipients date short_body status].
  by rewrite !clean_idem.
Qed.

(** C8: after [prepare] the body is the cleaned body, and [short_body] is
    empty when that is empty, the cleaned body itself when it has at most
    50 characters, and otherwise its first 47 characters followed by
    three dots, 50 characters in all. *)
Theorem prepare_short_body w l e items :
  email_at w l e items ->
  exists w' e',
    prepare l w = (Ok tt, w')
    /\ heap w' !! l = Some (OEmail e')
    /\ body e' = _clean_text (body e)
    /\ (body e' = [] -> short_body e' = [])
    /\ ((length (body e') <= 50)%nat -> short_body e' = body e')
    /\ ((50 < length (body e'))%nat ->
         short_body e' = take 47 (body e') ++ u "..."
         /\ length (short_body e') = 50%nat).
Proof.
  intros Hat. eexists _, (prepared e items).
  split; [by apply prepare_spec|].
  split; [apply lookup_insert_eq|].
  split; [done|].
  cbn [prepared set_status set_short_body set_body set_subject body short_body].
  rewrite short_of_clean. set (b := _clean_text (body e)).
  split; [by intros ->|]. split.
  - intros Hle. destruct b as [|c b']; [done|]. simpl negb. cbv iota.
    by rewrite (leb_correct _ _ Hle).
  - intros Hlt.
    assert (nonempty b = true) as -> by (destruct b; [simpl in Hlt; lia | done]).
    simpl negb. cbv iota. rewrite leb_correct_conv by done.
    split; [done|]. rewrite length_app, length_take.
    change (length (u "...")) with 3%nat. lia.
Qed.

Lemma prepare_short_body_witness :
  exists w' e',
    prepare 2%positive world_ex = (Ok tt, w')
    /\ heap w' !! 2%positive = Some (OEmail e')
    /\ body e' = _clean_text (body email_ex)
    /\ (body e' = [] -> short_body e' = [])
    /\ ((length (body e') <= 50)%nat -> short_body e' = body e')
    /\ ((50 < length (body e'))%nat ->
         short_body e' = take 47 (body e') ++ u "..."
         /\ length (short_body e') = 50%nat).
Proof.
  apply (prepare_short_body world_ex 2%positive email_ex items_ex).
  split; reflexivity.
Defined.

(** C9: a second [prepare] right after the first changes nothing: the
    store, and with it the subject, the body, the preview and the status
    of the message, is what the first call left. *)
Theorem prepare_idempotent w l e items :
  email_at w l e items ->
  exists w1 w2 e1 e2,
    prepare l w = (Ok tt, w1) /\ heap w1 !! l = Some (OEmail e1)
    /\ prepare l w1 = (Ok tt, w2) /\ heap w2 !! l = Some (OEmail e2)
    /\ subject e2 = subject e1 /\ body e2 = body e1
    /\ short_body e2 = short_body e1 /\ status e2 = status e1
    /\ w2 = w1.
Proof.
  intros Hat. pose proof Hat as [He Hl].
  assert (Hne : l <> recipients e) by (intros E; rewrite <- E, He in Hl; discriminate).
  set (w1 := with_heap (<[l := OEmail (prepared e items)]> (heap w)) w).
  assert (H2 : prepare l w1 = (Ok tt, w1)).
  { erewrite (prepare_spec w1 l (prepared e items) items).
    - unfold w1. by rewrite with_heap_twice, with_heap_heap, insert_insert_eq, prepared_idem.
    - split; simpl; [apply lookup_insert_eq|]. by rewrite lookup_insert_ne. }
  exists w1, w1, (prepared e items), (prepared e items).
  split; [by apply prepare_spec|].
  split; [apply lookup_insert_eq|].
  split; [done|].
  split; [apply lookup_insert_eq|]. done.
Qed.

Lemma prepare_idempotent_witness :
  exists w1 w2 e1 e2,
    prepare 2%positive world_ex = (Ok tt, w1) /\ heap w1 !! 2%positive = Some (OEmail e1)
    /\ prepare 2%positive w1 = (Ok tt, w2) /\ heap w2 !! 2%positive = Some (OEmail e2)
    /\ subject e2 = subject e1 /\ body e2 = body e1
    /\ short_body e2 = short_body e1 /\ status e2 = status e1
    /\ w2 = w1.
Proof.
  apply (prepare_idempotent world_ex 2%positive email_ex items_ex).
  split; reflexivity.
Defined.

(** ** Construction *)

Lemma Email_init_spec (s b : str) (sndr rcp : pyval) (dt : option Z) w items :
  normalized rcp = Some items ->
  exists l rl w',
    Email_init s b sndr rcp dt w = (Ok l, w')
    /\ email_at w' l
         {| subject := s; body := b; sender := sndr; recipients := rl;
            date := match dt with Some d => d | None => clock w (ticks w) end;
            short_body := []; status := DRAFT |} items
    /\ heap w ⊆ heap w'
    /\ (forall k ek, heap w' !! k = Some (OEmail ek) ->
          k = l \/ heap w !! k = Some (OEmail ek)).
Proof.
  intros Hn.
  set (w0 := match dt with
             | Some _ => w
             | None => {| heap := heap w; clock := clock w; ticks := S (ticks w) |}
             end).
  set (d := match dt with Some d => d | None => clock w (ticks w) end).
  assert (Hd : (match dt with Some d => ret d | None => now end) w = (Ok d, w0))
    by by destruct dt.
  assert (Hh0 : heap w0 = heap w) by by destruct dt.
  set (rl := fresh (dom (heap w0))).
  set (h1 := <[rl := OList items]> (heap w0)).
  assert (Hrl : (match rcp with
                 | PAddr a => alloc (OList [PAddr a])
                 | PList items => alloc (OList items)
                 | _ => raise TypeError
                 end) w0 = (Ok rl, with_heap h1 w0)).
  { destruct rcp; try discriminate; injection Hn as <-; apply alloc_Ok. }
  set (l := fresh (dom h1)).
  assert (Hl : l <> rl).
  { apply fresh_ne. unfold h1. rewrite lookup_insert_eq. eauto. }
  assert (Hrlw : heap w0 !! rl = None) by apply fresh_None.
  assert (Hlw : heap w0 !! l = None).
  { pose proof (fresh_None h1) as H. fold l in H. unfold h1 in H.
    by rewrite lookup_insert_ne in H. }
  exists l, rl. eexists. split.
  { unfold Email_init. mstep by exact Hd. mstep by exact Hrl. apply alloc_Ok. }
  split; [split|]; cbn [heap with_heap recipients].
  - apply lookup_insert_eq.
  - rewrite lookup_insert_ne by done. apply lookup_insert_eq.
  - rewrite <- Hh0. split.
    + apply insert_subseteq_r; [done|]. by apply insert_subseteq.
    + intros k ek Hk. destruct (decide (k = l)) as [->|Hkl]; [by left | right].
      rewrite lookup_insert_ne in Hk by done. unfold h1 in Hk.
      destruct (decide (k = rl)) as [->|Hkr].
      * by rewrite lookup_insert_eq in Hk.
      * by rewrite lookup_insert_ne in Hk.
Qed.

Lemma Email_init_TypeError (s b : str) (sndr rcp : pyval) (dt : option Z) w :
  normalized rcp = None ->
  exists w', Email_init s b sndr rcp dt w = (Raise TypeError, w')
             /\ heap w' = heap w.
Proof.
  intros Hn. unfold Email_init.
  destruct dt as [d|]; (mstep by reflexivity);
    destruct rcp; try discriminate; by eexists.
Qed.

(** C2, as amended: the constructor raises [TypeError] exactly when
    [recipients] is neither an [EmailAddress] nor a [list]; one address
    becomes a list of one element and a list is stored as a list of the
    same elements, whatever these are. *)
Theorem Email_init_recipients (s b : str) (sndr rcp : pyval) (dt : option Z) w :
  ((Email_init s b sndr rcp dt w).1 = Raise TypeError
   <-> is_EmailAddress rcp = false /\ is_list rcp = false)
  /\ (forall a, rcp = PAddr a ->
        exists l w' e, Email_init s b sndr rcp dt w = (Ok l, w')
                       /\ email_at w' l e [PAddr a] /\ status e = DRAFT)
  /\ (forall items, rcp = PList items ->
        exists l w' e, Email_init s b sndr rcp dt w = (Ok l, w')
                       /\ email_at w' l e items /\ status e = DRAFT).
Proof.
  split; [|split].
  - destruct (normalized rcp) as [items|] eqn:Hn.
    + destruct (Email_init_spec s b sndr rcp dt w items Hn) as (l & rl & w' & -> & _).
      split; [done|]. by destruct rcp; intros [? ?].
    + destruct (Email_init_TypeError s b sndr rcp dt w Hn) as (w' & -> & _).
      split; [|done]. intros _. by destruct rcp.
  - intros a ->.
    destruct (Email_init_spec s b sndr (PAddr a) dt w [PAddr a] eq_refl)
      as (l & rl & w' & Hrun & Hat & _).
    by exists l, w'; eexists.
  - intros items ->.
    destruct (Email_init_spec s b sndr (PList items) dt w items eq_refl)
      as (l & rl & w' & Hrun & Hat & _).
    by exists l, w'; eexists.
Qed.

(** C2 as stated fails: a list that holds an integer is neither an address
    nor a sequence of addresses, and the constructor takes it. *)
Lemma Email_init_takes_any_list :
  address_or_addresses (PList [PInt 1]) = false
  /\ (Email_init (u "Hi") (u "text") (addr "a@example.com") (PList [PInt 1]) None
        world_ex).1 = Ok 4%positive.
Proof. split; reflexivity. Qed.

(** C10: the constructor takes an empty list of recipients; for the
    message it makes [send_email] returns the empty list, and [prepare]
    sets the status to [INVALID]. *)
Theorem empty_recipients (s b : str) (sndr : pyval) (dt : option Z) w :
  exists l w1,
    Email_init s b sndr (PList []) dt w = (Ok l, w1)
    /\ (exists w2, send_email l w1 = (Ok [], w2))
    /\ (exists w2 e2, prepare l w1 = (Ok tt, w2)
                      /\ heap w2 !! l = Some (OEmail e2) /\ status e2 = INVALID
                      /\ exists w3, send_email l w2 = (Ok [], w3)).
Proof.
  destruct (Email_init_spec s b sndr (PList []) dt w [] eq_refl)
    as (l & rl & w1 & Hrun & Hat & _).
  assert (Hsend : forall w' e', email_at w' l e' [] -> exists w2, send_email l w' = (Ok [], w2)).
  { intros w' e' Hat'.
    destruct (send_email_spec w' l e' [] Hat') as (cs & w2 & Hs & _ & _ & _ & Hsent & _).
    apply sent_length in Hsent. destruct cs; [by exists w2 | done]. }
  exists l, w1. split; [done|]. split; [by eapply Hsend|].
  set (e := {| subject := s |}) in Hat.
  eexists _, (prepared e []). split; [by apply prepare_spec|].
  split; [apply lookup_insert_eq|]. split.
  - unfold prepared, ready. by rewrite andb_false_r.
  - apply (Hsend _ (prepared e [])). destruct Hat as [He Hl]. split; simpl.
    + apply lookup_insert_eq.
    + rewrite lookup_insert_ne; [done|]. intros E. cbn [recipients e] in Hl. congruence.
Qed.

(** ** Addresses *)

Lemma valid_suffix_spec (a : str) :
  existsb (endswith a) VALID_DOMAINS = true <-> valid_suffix a.
Proof.
  rewrite existsb_exists. unfold valid_suffix. split.
  - intros (d & Hd & He). exists d. split; [by apply list_elem_of_In|].
    by apply endswith_spec.
  - intros (d & Hd & He). exists d. split; [by apply list_elem_of_In|].
    by apply endswith_spec.
Qed.

Lemma _validate_spec (a : str) :
  (rejected a /\ _validate a = Raise ValueError)
  \/ (~ rejected a /\ _validate a = Ok tt).
Proof.
  unfold _validate, rejected.
  destruct (contains AT a) eqn:Hc; cbn [negb].
  - apply contains_spec in Hc.
    destruct (existsb (endswith a) VALID_DOMAINS) eqn:Hs; cbn [negb].
    + apply valid_suffix_spec in Hs. right. split; [|done]. intros [H|H]; auto.
    + left. split; [|done]. right. intros H%valid_suffix_spec. congruence.
  - left. split; [|done]. left. intros H%contains_spec. congruence.
Qed.

(** C4: the constructor normalizes the raw string (strip, then lower)
    and raises [ValueError] exactly when the normalized string has no
    at-sign or ends with none of the allowed suffixes; otherwise it
    succeeds and the address it stores is the normalized string. *)
Theorem EmailAddress_init_spec (lower : str -> str) (raw : str) :
  let a := lower (strip raw) in
  (EmailAddress_init lower raw = Raise ValueError <-> rejected a)
  /\ (EmailAddress_init lower raw = Ok {| _address := a |} <-> ~ rejected a)
  /\ (forall x, EmailAddress_init lower raw = Ok x -> _address x = a).
Proof.
  intros a. unfold EmailAddress_init, _normalize. fold a.
  destruct (_validate_spec a) as [[Hr ->]|[Hr ->]].
  - split; [done|]. split; [split; [done | by intros []] | done].
  - split; [split; [done | by intros ?]|]. split; [done|]. by intros x [= <-].
Qed.

Lemma split_before_sep c (l d : str) :
  c ∉ l -> split c (l ++ c :: d) = l :: split c d.
Proof.
  induction l as [|x l IH]; simpl; intros Hc.
  - by rewrite N.eqb_refl.
  - destruct (N.eqb_spec x c) as [->|Hne]; [exfalso; apply Hc; by left|].
    rewrite IH; [done|]. intros H. apply Hc. by right.
Qed.

(** With one at-sign [masked] is the first two characters of the local
    part, three stars, the at-sign and the domain. *)
Lemma masked_one_at (l d : str) :
  AT ∉ l -> AT ∉ d ->
  masked {| _address := l ++ AT :: d |} = Ok (take 2 l ++ u "***" ++ u "@" ++ d).
Proof.
  intros Hl Hd. unfold masked. cbn [_address].
  rewrite (split_before_sep AT l d Hl), (split_id AT d Hd).
  by rewrite <- app_assoc.
Qed.

(** With two at-signs there are three pieces to unpack. *)
Lemma masked_two_ats_general (l m d : str) :
  AT ∉ l -> AT ∉ m ->
  masked {| _address := l ++ AT :: m ++ AT :: d |} = Raise ValueError.
Proof.
  intros Hl Hm. unfold masked. cbn [_address].
  rewrite (split_before_sep AT l _ Hl), (split_before_sep AT m d Hm).
  pose proof (split_nonnil AT d). by destruct (split AT d).
Qed.

(** C1, at the input where the code departs from it: the constructor
    takes an address with two at-signs, and [masked] raises [ValueError]
    on it. *)
Theorem masked_raises_on_two_ats :
  EmailAddress_init ascii_lower (u "a@b@c.com") = Ok {| _address := u "a@b@c.com" |}
  /\ masked {| _address := u "a@b@c.com" |} = Raise ValueError.
Proof. split; reflexivity. Qed.

(** ** The status of a message over its life *)

Lemma get_email_Raise w l :
  (forall e, heap w !! l <> Some (OEmail e)) ->
  get_email l w = (Raise AttributeError, w).
Proof.
  intros H. unfold get_email. destruct (heap w !! l) as [[e|items]|] eqn:E; try done.
  by destruct (H e).
Qed.

Lemma bind_Raise {A B} (m : M A) (k : A -> M B) w x w1 :
  m w = (Raise x, w1) -> bind m k w = (Raise x, w1).
Proof. unfold bind. by intros ->. Qed.

Lemma exec_not_email o w l :
  (o = Prepare l \/ o = Send l) ->
  (forall e, heap w !! l <> Some (OEmail e)) -> exec o w = w.
Proof.
  intros [-> | ->] H; simpl; unfold prepare, send_email;
    by erewrite bind_Raise by by apply get_email_Raise.
Qed.

Lemma status_prepared e items :
  status (prepared e items) = READY \/ status (prepared e items) = INVALID.
Proof. unfold prepared. cbn [status set_status]. destruct (ready _ _); auto. Qed.

Lemma inv_email_prepared e items : inv_email (prepared e items) items.
Proof.
  unfold inv_email. rewrite prepared_idem.
  by destruct (status_prepared e items) as [-> | ->].
Qed.

Lemma inv_email_copy e items r rl t :
  r ∈ items -> inv_email e items -> inv_email (sent_copy e rl t) [r].
Proof.
  intros Hr. unfold inv_email. cbn [status sent_copy].
  destruct (decide (status e = READY)) as [-> | _]; [|done].
  unfold prepared, ready.
  cbn [status set_status set_short_body set_body set_subject subject body sender
       sent_copy].
  destruct (nonempty (_clean_text (subject e))); cbn [andb]; [|done].
  destruct (nonempty (_clean_text (body e))); cbn [andb]; [|done].
  destruct (truthy (sender e)); cbn [andb]; [|done].
  destruct items as [|i0 items']; [done|].
  destruct (forallb is_EmailAddress (i0 :: items')) eqn:Hall; [|done].
  intros _. rewrite forallb_forall in Hall.
  cbn [forallb]. rewrite (Hall r); [done|]. by apply list_elem_of_In.
Qed.

Lemma inv_exec o w : inv w -> inv (exec o w).
Proof.
  intros Hinv. destruct o as [s b sndr rcp dt | l | l]; cbn [exec].
  - destruct (normalized rcp) as [items|] eqn:Hn.
    + destruct (Email_init_spec s b sndr rcp dt w items Hn)
        as (l & rl & w' & -> & [He Hl] & Hsub & Hnew).
      intros k ek Hk. cbn [snd] in Hk |- *. destruct (Hnew k ek Hk) as [-> | Hold].
      * rewrite He in Hk. injection Hk as <-. by exists items.
      * destruct (Hinv k ek Hold) as (its & Hits & Hi). exists its.
        split; [by eapply lookup_weaken | done].
    + destruct (Email_init_TypeError s b sndr rcp dt w Hn) as (w' & -> & Hh).
      intros k ek. cbn [snd]. rewrite Hh. apply Hinv.
  - destruct (heap w !! l) as [[e|its]|] eqn:El.
    2,3: change (inv (exec (Prepare l) w));
         rewrite (exec_not_email (Prepare l) w l); [done | by left | congruence].
    destruct (Hinv l e El) as (items & Hl & Hi).
    rewrite (prepare_spec w l e items (conj El Hl)).
    intros k ek Hk. cbn [snd heap with_heap] in Hk |- *. destruct (decide (k = l)) as [-> | Hkl].
    + rewrite lookup_insert_eq in Hk. injection Hk as <-. exists items.
      split; [|apply inv_email_prepared].
      cbn [recipients prepared set_status set_short_body set_body set_subject].
      rewrite lookup_insert_ne; [done|]. congruence.
    + rewrite lookup_insert_ne in Hk by done.
      destruct (Hinv k ek Hk) as (its & Hits & Hi'). exists its. split; [|done].
      rewrite lookup_insert_ne; [done|]. congruence.
  - destruct (heap w !! l) as [[e|its]|] eqn:El.
    2,3: change (inv (exec (Send l) w));
         rewrite (exec_not_email (Send l) w l); [done | by right | congruence].
    destruct (Hinv l e El) as (items & Hl & Hi).
    destruct (send_email_spec w l e items (conj El Hl))
      as (cs & w' & -> & Hsub & _ & _ & Hsent & Hnew).
    intros k ek Hk. cbn [snd] in Hk |- *.
    destruct (Hnew k ek Hk) as [[i Hc]%list_elem_of_lookup | Hold].
    + destruct (sent_lookup _ _ _ _ _ _ _ _ _ Hsent Hc)
        as (r & rl & Hr & _ & _ & _ & Hhc & Hhrl).
      rewrite Hhc in Hk. injection Hk as <-. exists [r]. split; [done|].
      eapply inv_email_copy; [|done]. by eapply list_elem_of_lookup_2.
    + destruct (Hinv k ek Hold) as (its & Hits & Hi'). exists its.
      split; [by eapply lookup_weaken | done].
Qed.

Lemma reachable_inv w : reachable w -> inv w.
Proof.
  induction 1 as [clk | w o _ IH].
  - intros k e Hk. simpl in Hk. by rewrite lookup_empty in Hk.
  - by apply inv_exec.
Qed.

Lemma in_place_refl o s : in_place o s s = true.
Proof. unfold in_place. by rewrite bool_decide_eq_true_2. Qed.

Lemma in_place_prepare l e items :
  inv_email e items -> in_place (Prepare l) (status e) (status (prepared e items)) = true.
Proof.
  unfold inv_email.
  destruct (status e); destruct (status_prepared e items) as [-> | ->];
    by intros.
Qed.

Lemma copied_send e rl t : copied (status e) (status (sent_copy e rl t)) = true.
Proof. cbn [status sent_copy]. by destruct (status e). Qed.

(** C3, as amended: in a world a program can reach, the status of a
    message that is in the store changes only by [prepare], which takes
    [DRAFT] to [READY] or [INVALID], leaves [READY] and [INVALID] as they
    are, and on a copy [send_email] returned takes [SENT] to [READY] and
    [FAILED] to [READY] or [INVALID]; the constructor and [send_email]
    change the status of no message in the store.  Each copy [send_email]
    returns is [SENT] for a [READY] message and [FAILED] for a [DRAFT],
    [INVALID], [SENT] or [FAILED] one. *)
Theorem status_transitions w :
  reachable w ->
  (forall o k e e',
      heap w !! k = Some (OEmail e) ->
      heap (exec o w) !! k = Some (OEmail e') ->
      in_place o (status e) (status e') = true)
  /\ (forall l e cs c ec,
        heap w !! l = Some (OEmail e) ->
        (send_email l w).1 = Ok cs -> c ∈ cs ->
        heap (exec (Send l) w) !! c = Some (OEmail ec) ->
        copied (status e) (status ec) = true).
Proof.
  intros Hinv%reachable_inv. split.
  - intros o k e e' Hk Hk'.
    assert (Hsame : heap w ⊆ heap (exec o w) -> in_place o (status e) (status e') = true).
    { intros Hsub. pose proof (lookup_weaken _ _ _ _ Hk Hsub) as Hk2.
      rewrite Hk2 in Hk'. injection Hk' as <-. apply in_place_refl. }
    destruct o as [s b sndr rcp dt | l | l].
    + apply Hsame. cbn [exec]. destruct (normalized rcp) as [items|] eqn:Hn.
      * by destruct (Email_init_spec s b sndr rcp dt w items Hn)
          as (l & rl & w' & -> & _ & Hsub & _).
      * destruct (Email_init_TypeError s b sndr rcp dt w Hn) as (w' & -> & Hh).
        cbn [snd]. by rewrite Hh.
    + destruct (heap w !! l) as [[el|its]|] eqn:El.
      2,3: apply Hsame; rewrite (exec_not_email (Prepare l) w l);
           [done | by left | congruence].
      destruct (Hinv l el El) as (items & Hl & Hi).
      cbn [exec] in Hk'. rewrite (prepare_spec w l el items (conj El Hl)) in Hk'.
      cbn [snd heap with_heap] in Hk'.
      destruct (decide (k = l)) as [-> | Hkl].
      * rewrite lookup_insert_eq in Hk'. injection Hk' as <-.
        assert (e = el) as -> by congruence. by apply in_place_prepare.
      * rewrite lookup_insert_ne in Hk' by done.
        assert (e' = e) as -> by congruence. apply in_place_refl.
    + apply Hsame. destruct (heap w !! l) as [[el|its]|] eqn:El.
      2,3: rewrite (exec_not_email (Send l) w l); [done | by right | congruence].
      destruct (Hinv l el El) as (items & Hl' & Hi). cbn [exec].
      by destruct (send_email_spec w l el items (conj El Hl'))
        as (cs & w' & -> & Hsub & _).
  - intros l e cs c ec Hl Hrun Hc Hec.
    destruct (Hinv l e Hl) as (items & Hl' & Hi).
    destruct (send_email_spec w l e items (conj Hl Hl'))
      as (cs' & w' & Hs & _ & _ & _ & Hsent & _).
    cbn [exec] in Hec. rewrite Hs in Hrun, Hec. cbn [fst snd] in Hrun, Hec.
    injection Hrun as <-. apply list_elem_of_lookup in Hc as [i Hc].
    destruct (sent_lookup _ _ _ _ _ _ _ _ _ Hsent Hc)
      as (r & rl & _ & _ & _ & _ & Hhc & _).
    rewrite Hhc in Hec. injection Hec as <-. apply copied_send.
Qed.

Lemma world_ex_reachable : reachable world_ex.
Proof.
  exact (reach_step {| heap := ∅; clock := fun n => Z.of_nat n; ticks := 0 |}
           (New (subject email_ex) (body email_ex) (sender email_ex)
                (PList items_ex) None)
           (reach_start _)).
Qed.

(** A draft that is sent: the copy is [FAILED]. *)
Lemma transition_ex : transition world_ex (Send 2%positive) DRAFT FAILED.
Proof.
  exact (tr_copy world_ex 2%positive email_ex [3%positive; 6%positive] 3%positive
           (sent_copy email_ex 5%positive 1%Z)
           eq_refl eq_refl (list_elem_of_here _ _) eq_refl).
Qed.

Lemma status_transitions_witness :
  (forall o k e e',
      heap world_ex !! k = Some (OEmail e) ->
      heap (exec o world_ex) !! k = Some (OEmail e') ->
      in_place o (status e) (status e') = true)
  /\ (forall l e cs c ec,
        heap world_ex !! l = Some (OEmail e) ->
        (send_email l world_ex).1 = Ok cs -> c ∈ cs ->
        heap (exec (Send l) world_ex) !! c = Some (OEmail ec) ->
        copied (status e) (status ec) = true).
Proof.
  apply (status_transitions world_ex).
  exact world_ex_reachable.
Defined.

(** C3 as stated fails: a draft can be sent, and its copies are [FAILED];
    the specification lists no change from [DRAFT] to [FAILED]. *)
Lemma draft_to_failed_not_claimed :
  reachable world_ex
  /\ transition world_ex (Send 2%positive) DRAFT FAILED
  /\ claimed (Send 2%positive) DRAFT FAILED = false.
Proof. split; [exact world_ex_reachable | split; [exact transition_ex | reflexivity]]. Qed.

(** * Further properties of the code *)

(** ** masked *)

Lemma count_cons c x (s : list N) :
  count c (x :: s) = if decide (x = c) then S (count c s) else count c s.
Proof.
  unfold count. destruct (decide (x = c)) as [E|E].
  - by rewrite filter_cons_True.
  - by rewrite filter_cons_False.
Qed.

Lemma split_length c (s : str) : length (split c s) = S (count c s).
Proof.
  induction s as [|x s IH]; [done|]. rewrite count_cons. simpl.
  destruct (N.eqb_spec x c) as [->|Hne].
  - rewrite decide_True by done. simpl. by rewrite IH.
  - rewrite decide_False by done. destruct (split c s); simpl in *; lia.
Qed.

Lemma masked_cases (a : EmailAddress) :
  ((exists m, masked a = Ok m) <-> count AT (_address a) = 1%nat)
  /\ (masked a = Raise ValueError <-> count AT (_address a) <> 1%nat).
Proof.
  pose proof (split_length AT (_address a)) as Hlen. unfold masked.
  destruct (split AT (_address a)) as [|l [|d [|x xs]]]; simpl in Hlen.
  - lia.
  - split; split; [by intros [m ?] | lia | lia | done].
  - split; split; [lia | by eexists | done | lia].
  - split; split; [by intros [m ?] | lia | lia | done].
Qed.

(** X1: [masked] returns exactly for the addresses with one at-sign, and
    raises [ValueError] for every other one. *)
Theorem masked_returns_iff_one_at (a : EmailAddress) :
  ((exists m, masked a = Ok m) <-> count AT (_address a) = 1%nat)
  /\ (masked a = Raise ValueError <-> count AT (_address a) <> 1%nat).
Proof. exact (masked_cases a). Qed.

(** X2: for an address with one at-sign, masking gives back the address
    itself exactly when the local part is its own first two characters
    followed by three stars. *)
Theorem masked_hides_nothing_iff (l d : str) :
  AT ∉ l -> AT ∉ d ->
  (masked {| _address := l ++ AT :: d |} = Ok (l ++ AT :: d)
   <-> l = take 2 l ++ u "***").
Proof.
  intros Hl Hd. rewrite (masked_one_at l d Hl Hd).
  assert (E : take 2 l ++ u "***" ++ u "@" ++ d = (take 2 l ++ u "***") ++ AT :: d)
    by by rewrite <- app_assoc.
  rewrite E. split.
  - intros H. injection H as H. by apply app_inv_tail in H.
  - intros H. by rewrite <- H.
Qed.

Lemma masked_hides_nothing_iff_witness :
  masked {| _address := u "ab***" ++ AT :: u "x.com" |} = Ok (u "ab***" ++ AT :: u "x.com")
  <-> u "ab***" = take 2 (u "ab***") ++ u "***".
Proof.
  apply (masked_hides_nothing_iff (u "ab***") (u "x.com")).
  - vm_compute. intros H. repeat (apply elem_of_cons in H as [H|H]; [discriminate|]).
    by apply elem_of_nil in H.
  - vm_compute. intros H. repeat (apply elem_of_cons in H as [H|H]; [discriminate|]).
    by apply elem_of_nil in H.
Defined.

(** ** Addresses: construction from a stored address *)

Lemma isspace_letter c : 65 <= c -> c <= 122 -> isspace c = false.
Proof.
  intros H1 H2. unfold isspace.
  replace (c <=? 13) with false by (symmetry; apply N.leb_gt; lia).
  replace (c <=? 32) with false by (symmetry; apply N.leb_gt; lia).
  replace (8192 <=? c) with false by (symmetry; apply N.leb_gt; lia).
  repeat match goal with
         | |- context [c =? ?k] =>
             replace (c =? k) with false by (symmetry; apply N.eqb_neq; lia)
         end.
  by rewrite !andb_false_r.
Qed.

Lemma ascii_lower_idem (s : str) : ascii_lower (ascii_lower s) = ascii_lower s.
Proof.
  unfold ascii_lower. rewrite <- list_fmap_compose. apply list_fmap_ext.
  intros _ c _. simpl.
  destruct (N.leb_spec 65 c); destruct (N.leb_spec c 90); simpl; try done.
  - destruct (N.leb_spec 65 (c + 32)); destruct (N.leb_spec (c + 32) 90); simpl; lia.
  - destruct (N.leb_spec 65 c); [|lia]. destruct (N.leb_spec c 90); [lia|]. done.
  - destruct (N.leb_spec 65 c); [lia|]. done.
  - destruct (N.leb_spec 65 c); [lia|]. done.
Qed.

Lemma ascii_lower_head_ok (s : str) : head_ok s -> head_ok (ascii_lower s).
Proof.
  destruct s as [|c s]; [done|]. simpl.
  destruct (N.leb_spec 65 c); destruct (N.leb_spec c 90); simpl; try done.
  intros _. apply isspace_letter; lia.
Qed.

Lemma ascii_lower_trimmed (s : str) : trimmed s -> trimmed (ascii_lower s).
Proof.
  intros [H1 H2]. split; [by apply ascii_lower_head_ok|].
  unfold ascii_lower. rewrite <- fmap_reverse. by apply ascii_lower_head_ok.
Qed.

(** X3: when lowering is idempotent and keeps a string free of white
    space at its ends, an address built from the stored string of an
    address is that address again. *)
Theorem EmailAddress_init_roundtrip (lower : str -> str) (raw : str) (a : EmailAddress) :
  (forall s, lower (lower s) = lower s) ->
  (forall s, trimmed s -> trimmed (lower s)) ->
  EmailAddress_init lower raw = Ok a ->
  EmailAddress_init lower (_address a) = Ok a.
Proof.
  intros Hidem Htrim. unfold EmailAddress_init, _normalize.
  destruct (_validate (lower (strip raw))) as [[]| |] eqn:Hv; try done.
  intros [= <-]. cbn [_address].
  rewrite (trimmed_strip_fix (lower (strip raw))) by apply Htrim, strip_trimmed.
  by rewrite Hidem, Hv.
Qed.

Lemma EmailAddress_init_roundtrip_witness :
  EmailAddress_init ascii_lower (u "aleks@example.com")
  = Ok {| _address := u "aleks@example.com" |}.
Proof.
  apply (EmailAddress_init_roundtrip ascii_lower (u "  Aleks@Example.COM  ")
           {| _address := u "aleks@example.com" |}).
  - exact ascii_lower_idem.
  - exact ascii_lower_trimmed.
  - reflexivity.
Defined.

(** ** _clean_text *)

(** X4: the strings [_clean_text] leaves as they are are those without a
    line break that neither start nor end with white space; every cleaned
    string is one of them. *)
Theorem clean_text_fixed_points (s : str) :
  (_clean_text s = s <-> (NL ∉ s) /\ trimmed s)
  /\ (NL ∉ _clean_text s) /\ trimmed (_clean_text s).
Proof.
  split; [split|split; [apply clean_no_nl | apply clean_trimmed]].
  - intros <-. split; [apply clean_no_nl | apply clean_trimmed].
  - intros [H1 H2]. by apply clean_fix.
Qed.

Lemma split_sub c (s p : str) x : p ∈ split c s -> x ∈ p -> x ∈ s.
Proof.
  revert p. induction s as [|a s IH]; simpl; intros p.
  - intros ->%list_elem_of_singleton. by intros ?%elem_of_nil.
  - destruct (a =? c).
    + intros [->|H]%elem_of_cons; [by intros ?%elem_of_nil|].
      intros Hx. right. by eapply IH.
    + destruct (split c s) as [|w ws] eqn:E.
      * intros ->%list_elem_of_singleton. intros [->|H]%elem_of_cons; [by left|].
        by apply elem_of_nil in H.
      * intros [->|H]%elem_of_cons.
        -- intros [->|H]%elem_of_cons; [by left|]. right. apply (IH w); [by left | done].
        -- intros Hx. right. apply (IH p); [by right | done].
Qed.

Lemma elem_of_split c (s : str) x :
  x ∈ s -> x <> c -> exists p, p ∈ split c s /\ x ∈ p.
Proof.
  induction s as [|a s IH]; simpl; [by intros ?%elem_of_nil|].
  intros [->|Hx]%elem_of_cons Hne.
  - destruct (N.eqb_spec a c) as [E|_]; [done|].
    destruct (split c s) as [|w ws]; eexists; (split; [by left | by left]).
  - destruct (IH Hx Hne) as (p & Hp & Hxp).
    destruct (a =? c); [exists p; split; [by right | done]|].
    destruct (split c s) as [|w ws]; [by apply elem_of_nil in Hp|].
    apply elem_of_cons in Hp as [->|Hp].
    + exists (a :: w). split; [by left | by right].
    + exists p. split; [by right | done].
Qed.

Lemma lstrip_keeps (s : str) x : x ∈ s -> isspace x = false -> x ∈ lstrip s.
Proof.
  induction s as [|a s IH]; simpl; [done|].
  intros Hx Hs. destruct (isspace a) eqn:Ea; [|done].
  apply elem_of_cons in Hx as [->|Hx]; [congruence | by apply IH].
Qed.

Lemma strip_keeps (s : str) x : x ∈ s -> isspace x = false -> x ∈ strip s.
Proof.
  intros Hx Hs. unfold strip, rstrip. apply elem_of_reverse.
  apply lstrip_keeps; [|done]. apply elem_of_reverse. by apply lstrip_keeps.
Qed.

Lemma join_nonnil_elem (sep p : str) (parts : list str) :
  p ∈ parts -> p <> [] -> join sep parts <> [].
Proof.
  induction parts as [|q qs IH]; [by intros ?%elem_of_nil|].
  intros [->|Hp]%elem_of_cons Hne.
  - destruct qs; simpl; [done|]. by destruct q.
  - specialize (IH Hp Hne). destruct qs as [|q' qs']; [by apply elem_of_nil in Hp|].
    change (join sep (q :: q' :: qs')) with (q ++ sep ++ join sep (q' :: qs')).
    intros E. apply app_eq_nil in E as [_ E]. apply app_eq_nil in E as [_ E]. done.
Qed.

Lemma clean_nonnil_iff (t : str) : _clean_text t <> [] <-> has_text t.
Proof.
  split.
  - intros Hne.
    assert (Hl : clean_lines t <> []) by (intros E; apply Hne; unfold _clean_text; fold (clean_lines t); by rewrite E).
    destruct (clean_lines t) as [|p ps] eqn:E; [done|].
    assert (Hp : p ∈ clean_lines t) by (rewrite E; by left).
    apply list_elem_of_filter in Hp as [Hpn Hp].
    apply list_elem_of_fmap in Hp as (q & -> & Hq).
    pose proof (strip_trimmed q) as [Hh _].
    destruct (strip q) as [|c r] eqn:Es; [done|].
    exists c. split; [|exact Hh].
    apply (split_sub NL t q); [done|]. apply strip_sub. rewrite Es. by left.
  - intros (c & Hc & Hs).
    assert (Hnl : c <> NL) by (intros ->; discriminate).
    destruct (elem_of_split NL t c Hc Hnl) as (p & Hp & Hcp).
    apply (join_nonnil_elem SP (strip p)).
    + apply list_elem_of_filter. split.
      * pose proof (strip_keeps p c Hcp Hs) as Hin.
        destruct (strip p); [by apply elem_of_nil in Hin | done].
      * by apply list_elem_of_fmap_2.
    + intros E. pose proof (strip_keeps p c Hcp Hs) as Hin.
      rewrite E in Hin. by apply elem_of_nil in Hin.
Qed.

(** X5: the cleaned text is empty exactly when the text has nothing but
    white space (line breaks included). *)
Theorem clean_text_nonempty_iff (t : str) : _clean_text t <> [] <-> has_text t.
Proof. exact (clean_nonnil_iff t). Qed.

(** ** prepare and _add_short_body *)

Lemma nonempty_clean_iff (t : str) : nonempty (_clean_text t) = true <-> has_text t.
Proof.
  rewrite <- clean_nonnil_iff. by destruct (_clean_text t).
Qed.

Lemma ready_prepared_iff e items :
  status (prepared e items) = READY <->
    has_text (subject e) /\ has_text (body e) /\ truthy (sender e) = true
    /\ items <> [] /\ Forall (fun r => is_EmailAddress r = true) items.
Proof.
  unfold prepared, ready.
  cbn [status set_status set_short_body set_body set_subject subject body sender].
  rewrite <- !nonempty_clean_iff.
  destruct (nonempty (_clean_text (subject e))); cbn [andb];
    [|split; [done | by intros [? _]]].
  destruct (nonempty (_clean_text (body e))); cbn [andb];
    [|split; [done | by intros (_ & ? & _)]].
  destruct (truthy (sender e)); cbn [andb];
    [|split; [done | by intros (_ & _ & ? & _)]].
  destruct items as [|r rs]; [split; [done | by intros (_ & _ & _ & ? & _)]|].
  destruct (forallb is_EmailAddress (r :: rs)) eqn:Hall.
  - split; [|done]. intros _. repeat split; try done.
    apply Forall_forall. intros x Hx%list_elem_of_In.
    by apply (proj1 (forallb_forall _ _) Hall).
  - split; [done|]. intros (_ & _ & _ & _ & HF).
    assert (forallb is_EmailAddress (r :: rs) = true); [|congruence].
    apply forallb_forall. intros x Hx%list_elem_of_In.
    by apply (proj1 (Forall_forall _ _) HF).
Qed.

(** X6: [prepare] always returns and leaves the status [READY] or
    [INVALID]; it is [READY] exactly when the subject and the body each
    have a character that is not white space, the sender is true, the
    list of recipients is not empty and each of its elements is an
    [EmailAddress]. *)
Theorem prepare_status w l e items :
  email_at w l e items ->
  exists w' e',
    prepare l w = (Ok tt, w') /\ heap w' !! l = Some (OEmail e')
    /\ (status e' = READY \/ status e' = INVALID)
    /\ (status e' = READY <->
          has_text (subject e) /\ has_text (body e) /\ truthy (sender e) = true
          /\ items <> [] /\ Forall (fun r => is_EmailAddress r = true) items).
Proof.
  intros Hat. eexists _, (prepared e items).
  split; [by apply prepare_spec|]. split; [apply lookup_insert_eq|].
  split; [apply status_prepared | apply ready_prepared_iff].
Qed.

Lemma prepare_status_witness :
  exists w' e',
    prepare 2%positive world_ex = (Ok tt, w') /\ heap w' !! 2%positive = Some (OEmail e')
    /\ (status e' = READY \/ status e' = INVALID)
    /\ (status e' = READY <->
          has_text (subject email_ex) /\ has_text (body email_ex)
          /\ truthy (sender email_ex) = true
          /\ items_ex <> [] /\ Forall (fun r => is_EmailAddress r = true) items_ex).
Proof.
  apply (prepare_status world_ex 2%positive email_ex items_ex).
  split; reflexivity.
Defined.

(** X7: [prepare] writes to the message it is called on and to nothing
    else: the sender, the list of recipients and the date of the message
    stay, every other object of the store stays, and the clock is not
    read. *)
Theorem prepare_frame w l e items :
  email_at w l e items ->
  exists w' e',
    prepare l w = (Ok tt, w') /\ heap w' !! l = Some (OEmail e')
    /\ sender e' = sender e /\ recipients e' = recipients e /\ date e' = date e
    /\ heap w' !! recipients e = Some (OList items)
    /\ (forall k, k <> l -> heap w' !! k = heap w !! k)
    /\ clock w' = clock w /\ ticks w' = ticks w.
Proof.
  intros Hat. pose proof Hat as [He Hl].
  assert (Hne : l <> recipients e) by (intros E; rewrite <- E, He in Hl; discriminate).
  eexists _, (prepared e items).
  split; [by apply prepare_spec|]. cbn [heap with_heap clock ticks].
  split; [apply lookup_insert_eq|]. do 3 (split; [done|]).
  split; [by rewrite lookup_insert_ne|].
  split; [|done]. intros k Hk. by rewrite lookup_insert_ne.
Qed.

Lemma prepare_frame_witness :
  exists w' e',
    prepare 2%positive world_ex = (Ok tt, w') /\ heap w' !! 2%positive = Some (OEmail e')
    /\ sender e' = sender email_ex /\ recipients e' = recipients email_ex
    /\ date e' = date email_ex
    /\ heap w' !! recipients email_ex = Some (OList items_ex)
    /\ (forall k, k <> 2%positive -> heap w' !! k = heap world_ex !! k)
    /\ clock w' = clock world_ex /\ ticks w' = ticks world_ex.
Proof.
  apply (prepare_frame world_ex 2%positive email_ex items_ex).
  split; reflexivity.
Defined.

Lemma short_of_length (b : str) : (length (short_of b) <= 50)%nat.
Proof.
  unfold short_of. destruct (negb (nonempty b)); [simpl; lia|].
  destruct (Nat.leb_spec (length (_clean_text b)) 50); [done|].
  rewrite length_app, length_take. change (length (u "...")) with 3%nat. lia.
Qed.

Lemma short_of_prefix (b : str) : take 47 (short_of b) = take 47 (_clean_text b).
Proof.
  unfold short_of. destruct b as [|c b']; [done|]. cbn [nonempty negb].
  destruct (Nat.leb_spec (length (_clean_text (c :: b'))) 50); [done|].
  rewrite take_app_length'; [done|]. rewrite length_take. lia.
Qed.

(** X8: [_add_short_body], on any message, prepared or not, writes a
    preview of at most 50 characters that agrees with the cleaned body on
    its first 47, is empty when the body has only white space, and leaves
    every other field as it was. *)
Theorem add_short_body_bound w l e :
  heap w !! l = Some (OEmail e) ->
  exists w' sb,
    _add_short_body l w = (Ok tt, w')
    /\ heap w' = <[l := OEmail (set_short_body sb e)]> (heap w)
    /\ (length sb <= 50)%nat
    /\ take 47 sb = take 47 (_clean_text (body e))
    /\ (~ has_text (body e) -> sb = []).
Proof.
  intros He. exists (with_heap (<[l := OEmail (set_short_body (short_of (body e)) e)]> (heap w)) w),
    (short_of (body e)).
  split.
  { unfold _add_short_body. mstep. unfold short_of.
    destruct (negb (nonempty (body e))); [|destruct (_ <=? _)%nat];
      by erewrite setattr_Ok by lookup_now. }
  split; [done|]. split; [apply short_of_length|]. split; [apply short_of_prefix|].
  intros Hno. unfold short_of. destruct (negb (nonempty (body e))); [done|].
  assert (Hc : _clean_text (body e) = []).
  { destruct (_clean_text (body e)) eqn:E; [done|]. exfalso. apply Hno.
    apply clean_nonnil_iff. by rewrite E. }
  by rewrite Hc.
Qed.

Lemma add_short_body_bound_witness :
  exists w' sb,
    _add_short_body 2%positive world_ex = (Ok tt, w')
    /\ heap w' = <[2%positive := OEmail (set_short_body sb email_ex)]> (heap world_ex)
    /\ (length sb <= 50)%nat
    /\ take 47 sb = take 47 (_clean_text (body email_ex))
    /\ (~ has_text (body email_ex) -> sb = []).
Proof.
  apply (add_short_body_bound world_ex 2%positive email_ex). reflexivity.
Defined.

(** ** send_email: dates, and after prepare *)

(** X9: [send_email] reads the clock once for each recipient and not
    otherwise: the i-th copy carries the i-th reading made after the call
    began. *)
Theorem send_email_dates w l e items :
  email_at w l e items ->
  exists cs w',
    send_email l w = (Ok cs, w')
    /\ clock w' = clock w /\ ticks w' = (ticks w + length items)%nat
    /\ forall i c, cs !! i = Some c ->
         exists ec, heap w' !! c = Some (OEmail ec)
                    /\ date ec = clock w (ticks w + i)%nat.
Proof.
  intros Hat.
  destruct (send_email_spec w l e items Hat)
    as (cs & w' & Hrun & _ & Hclk & Htk & Hsent & _).
  exists cs, w'. split; [done|]. split; [done|].
  split; [by rewrite Htk, (sent_length _ _ _ _ _ _ _ Hsent)|].
  intros i c Hc.
  destruct (sent_lookup _ _ _ _ _ _ _ _ _ Hsent Hc) as (r & rl & _ & _ & _ & _ & Hhc & _).
  by eexists.
Qed.

Lemma send_email_dates_witness :
  exists cs w',
    send_email 2%positive world_ex = (Ok cs, w')
    /\ clock w' = clock world_ex /\ ticks w' = (ticks world_ex + length items_ex)%nat
    /\ forall i c, cs !! i = Some c ->
         exists ec, heap w' !! c = Some (OEmail ec)
                    /\ date ec = clock world_ex (ticks world_ex + i)%nat.
Proof.
  apply (send_email_dates world_ex 2%positive email_ex items_ex).
  split; reflexivity.
Defined.

(** X10: [prepare] followed by [send_email]: there is one copy for each
    recipient, each with the cleaned subject and body, and the copies are
    [SENT] exactly when the message had text in its subject and in its
    body, a true sender and a non-empty list of [EmailAddress]
    recipients; otherwise they are [FAILED]. *)
Theorem prepare_then_send_email w l e items :
  email_at w l e items ->
  exists w1 cs w2,
    prepare l w = (Ok tt, w1) /\ send_email l w1 = (Ok cs, w2)
    /\ length cs = length items
    /\ forall c, c ∈ cs ->
         exists ec, heap w2 !! c = Some (OEmail ec)
           /\ subject ec = _clean_text (subject e)
           /\ body ec = _clean_text (body e)
           /\ (status ec = SENT \/ status ec = FAILED)
           /\ (status ec = SENT <->
                 has_text (subject e) /\ has_text (body e)
                 /\ truthy (sender e) = true
                 /\ items <> [] /\ Forall (fun r => is_EmailAddress r = true) items).
Proof.
  intros Hat. pose proof Hat as [He Hl].
  assert (Hne : l <> recipients e) by (intros E; rewrite <- E, He in Hl; discriminate).
  set (w1 := with_heap (<[l := OEmail (prepared e items)]> (heap w)) w).
  assert (Hat1 : email_at w1 l (prepared e items) items).
  { split; simpl; [apply lookup_insert_eq | by rewrite lookup_insert_ne]. }
  destruct (send_email_spec w1 l _ items Hat1)
    as (cs & w2 & Hrun & _ & _ & _ & Hsent & _).
  exists w1, cs, w2. split; [by apply prepare_spec|]. split; [done|].
  split; [by eapply sent_length|].
  intros c [i Hc]%list_elem_of_lookup.
  destruct (sent_lookup _ _ _ _ _ _ _ _ _ Hsent Hc) as (r & rl & _ & _ & _ & _ & Hhc & _).
  eexists. split; [exact Hhc|]. split; [done|]. split; [done|].
  cbn [status sent_copy]. rewrite <- ready_prepared_iff.
  destruct (decide (status (prepared e items) = READY)) as [E|E].
  - split; [by left | done].
  - split; [by right | done].
Qed.

Lemma prepare_then_send_email_witness :
  exists w1 cs w2,
    prepare 2%positive world_ex = (Ok tt, w1) /\ send_email 2%positive w1 = (Ok cs, w2)
    /\ length cs = length items_ex
    /\ forall c, c ∈ cs ->
         exists ec, heap w2 !! c = Some (OEmail ec)
           /\ subject ec = _clean_text (subject email_ex)
           /\ body ec = _clean_text (body email_ex)
           /\ (status ec = SENT \/ status ec = FAILED)
           /\ (status ec = SENT <->
                 has_text (subject email_ex) /\ has_text (body email_ex)
                 /\ truthy (sender email_ex) = true
                 /\ items_ex <> []
                 /\ Forall (fun r => is_EmailAddress r = true) items_ex).
Proof.
  apply (prepare_then_send_email world_ex 2%positive email_ex items_ex).
  split; reflexivity.
Defined.

(** ** The constructor *)

(** X11: for an address or a list, the constructor makes a new message and
    a new list object for it: the subject and the body are stored as given
    (not cleaned), the preview is empty, the status is [DRAFT], the date
    is the one given or else a reading of the clock, and every object
    already in the store stays as it was. *)
Theorem Email_init_new_message (s b : str) (sndr rcp : pyval) (dt : option Z) w items :
  normalized rcp = Some items ->
  exists l rl w',
    Email_init s b sndr rcp dt w = (Ok l, w')
    /\ (l ∉ dom (heap w)) /\ (rl ∉ dom (heap w)) /\ l <> rl
    /\ heap w' = <[l := OEmail {| subject := s; body := b; sender := sndr;
                                  recipients := rl;
                                  date := match dt with
                                          | Some d => d
                                          | None => clock w (ticks w)
                                          end;
                                  short_body := []; status := DRAFT |}]>
                   (<[rl := OList items]> (heap w))
    /\ ticks w' = match dt with Some _ => ticks w | None => S (ticks w) end.
Proof.
  intros Hn.
  set (w0 := match dt with
             | Some _ => w
             | None => {| heap := heap w; clock := clock w; ticks := S (ticks w) |}
             end).
  set (d := match dt with Some d => d | None => clock w (ticks w) end).
  assert (Hd : (match dt with Some d => ret d | None => now end) w = (Ok d, w0))
    by by destruct dt.
  assert (Hh0 : heap w0 = heap w) by by destruct dt.
  assert (Ht0 : ticks w0 = match dt with Some _ => ticks w | None => S (ticks w) end)
    by by destruct dt.
  set (rl := fresh (dom (heap w0))).
  set (h1 := <[rl := OList items]> (heap w0)).
  assert (Hrl : (match rcp with
                 | PAddr a => alloc (OList [PAddr a])
                 | PList items => alloc (OList items)
                 | _ => raise TypeError
                 end) w0 = (Ok rl, with_heap h1 w0)).
  { destruct rcp; try discriminate; injection Hn as <-; apply alloc_Ok. }
  set (l := fresh (dom h1)).
  assert (Hl : l <> rl).
  { apply fresh_ne. unfold h1. rewrite lookup_insert_eq. eauto. }
  assert (Hrlw : heap w0 !! rl = None) by apply fresh_None.
  assert (Hlw : heap w0 !! l = None).
  { pose proof (fresh_None h1) as H. fold l in H. unfold h1 in H.
    by rewrite lookup_insert_ne in H. }
  exists l, rl. eexists. split.
  { unfold Email_init. mstep by exact Hd. mstep by exact Hrl. apply alloc_Ok. }
  cbn [heap with_heap ticks]. rewrite <- Hh0.
  split; [by apply not_elem_of_dom|]. split; [by apply not_elem_of_dom|].
  split; [done|]. split; [done|]. exact Ht0.
Qed.

Lemma Email_init_new_message_witness :
  exists l rl w',
    Email_init (u " Hi ") (u "text") (addr "a@example.com") (addr "b@example.com")
      None world_ex = (Ok l, w')
    /\ (l ∉ dom (heap world_ex)) /\ (rl ∉ dom (heap world_ex)) /\ l <> rl
    /\ heap w' = <[l := OEmail {| subject := u " Hi "; body := u "text";
                                  sender := addr "a@example.com";
                                  recipients := rl;
                                  date := clock world_ex (ticks world_ex);
                                  short_body := []; status := DRAFT |}]>
                   (<[rl := OList [addr "b@example.com"]]> (heap world_ex))
    /\ ticks w' = S (ticks world_ex).
Proof.
  apply (Email_init_new_message (u " Hi ") (u "text") (addr "a@example.com")
           (addr "b@example.com") None world_ex [addr "b@example.com"]).
  reflexivity.
Defined.

(** ** Email.__repr__ *)

Lemma masked_of_cases (v : pyval) :
  ((exists m, masked_of v = Ok m) /\ one_at v)
  \/ (masked_of v = Raise ValueError /\ ~ one_at v)
  \/ (masked_of v = Raise AttributeError /\ ~ one_at v).
Proof.
  destruct v as [a| | | | | |];
    try (right; right; split; [done | by intros (a & ? & _)]).
  destruct (masked_cases a) as [H1 H2]. simpl.
  destruct (decide (count AT (_address a) = 1%nat)) as [E|E].
  - left. split; [by apply H1 | by exists a].
  - right; left. split; [by apply H2|]. intros (a' & [= <-] & ?). done.
Qed.

Lemma masked_all_cases (items : list pyval) :
  ((exists ms, masked_all items = Ok ms) /\ Forall one_at items)
  \/ (masked_all items = Raise ValueError /\ ~ Forall one_at items)
  \/ (masked_all items = Raise AttributeError /\ ~ Forall one_at items).
Proof.
  induction items as [|r rs IH]; [left; split; [by eexists | constructor]|].
  simpl. destruct (masked_of_cases r) as [[[m ->] Hr] | [[-> Hr] | [-> Hr]]].
  - destruct IH as [[[ms ->] Hrs] | [[-> Hrs] | [-> Hrs]]].
    + left. split; [by eexists | by constructor].
    + right; left. split; [done|]. by intros [_ ?]%Forall_cons.
    + right; right. split; [done|]. by intros [_ ?]%Forall_cons.
  - right; left. split; [done|]. by intros [? _]%Forall_cons.
  - right; right. split; [done|]. by intros [? _]%Forall_cons.
Qed.

(** X12: [Email.__repr__] returns exactly when the sender and every
    recipient are [EmailAddress] instances with one at-sign each;
    otherwise it raises [ValueError] or [AttributeError]. It changes
    nothing. *)
Theorem Email_repr_returns_iff w l e items :
  email_at w l e items ->
  ((exists s, Email_repr l w = (Ok s, w))
   <-> one_at (sender e) /\ Forall one_at items)
  /\ ((exists s, Email_repr l w = (Ok s, w))
      \/ Email_repr l w = (Raise ValueError, w)
      \/ Email_repr l w = (Raise AttributeError, w)).
Proof.
  intros [He Hl]. unfold Email_repr. do 2 mstep.
  destruct (masked_all_cases items) as [[[ms ->] Hrs] | [[-> Hrs] | [-> Hrs]]].
  - destruct (masked_of_cases (sender e)) as [[[m ->] Hs] | [[-> Hs] | [-> Hs]]].
    + split; [split; [done | by eexists] | left; by eexists].
    + split; [split; [by intros [? ?] | by intros [? _]] | right; by left].
    + split; [split; [by intros [? ?] | by intros [? _]] | right; by right].
  - split; [split; [by intros [? ?] | by intros [_ ?]] | right; by left].
  - split; [split; [by intros [? ?] | by intros [_ ?]] | right; by right].
Qed.

Lemma Email_repr_returns_iff_witness :
  ((exists s, Email_repr 2%positive world_ex = (Ok s, world_ex))
   <-> one_at (sender email_ex) /\ Forall one_at items_ex)
  /\ ((exists s, Email_repr 2%positive world_ex = (Ok s, world_ex))
      \/ Email_repr 2%positive world_ex = (Raise ValueError, world_ex)
      \/ Email_repr 2%positive world_ex = (Raise AttributeError, world_ex)).
Proof.
  apply (Email_repr_returns_iff world_ex 2%positive email_ex items_ex).
  split; reflexivity.
Defined.

Lemma not_contains (c : N) (s : str) : contains c s = false -> c ∉ s.
Proof. intros H Hc%contains_spec. congruence. Qed.

Lemma masked_of_at_address (ld : str * str) :
  AT ∉ ld.1 -> AT ∉ ld.2 -> masked_of (at_address ld) = Ok (mask ld).
Proof. intros H1 H2. destruct ld as [l d]. by apply masked_one_at. Qed.

Lemma masked_all_at_address (parts : list (str * str)) :
  Forall (fun ld => (AT ∉ ld.1) /\ (AT ∉ ld.2)) parts ->
  masked_all (at_address <$> parts) = Ok (mask <$> parts).
Proof.
  induction 1 as [|ld parts [H1 H2] _ IH]; [done|].
  rewrite !fmap_cons. cbn [masked_all].
  by rewrite (masked_of_at_address ld H1 H2), IH.
Qed.

(** X13: for a sender and recipients with one at-sign each, the display
    of a message is its subject, the masked sender, the masked recipients
    separated by a comma and a space, and the value of its status; the
    stored addresses appear only masked. *)
Theorem Email_repr_format w l e (from : str * str) (parts : list (str * str)) :
  email_at w l e (at_address <$> parts) ->
  sender e = at_address from ->
  (AT ∉ from.1) /\ (AT ∉ from.2) ->
  Forall (fun ld => (AT ∉ ld.1) /\ (AT ∉ ld.2)) parts ->
  Email_repr l w =
    (Ok (u "Email(subject='" ++ subject e ++ u "', sender=" ++ mask from
         ++ u ", recipients=[" ++ join (u ", ") (mask <$> parts)
         ++ u "], status=" ++ Status_value (status e) ++ u ")"), w).
Proof.
  intros [He Hl] Hs [Hf1 Hf2] Hparts. unfold Email_repr. do 2 mstep.
  rewrite (masked_all_at_address parts Hparts), Hs,
    (masked_of_at_address from Hf1 Hf2).
  unfold ret. do 2 f_equal.
Qed.

Lemma Email_repr_format_witness :
  Email_repr 2%positive world_ex =
    (Ok (u "Email(subject='" ++ subject email_ex ++ u "', sender="
         ++ mask (u "a", u "example.com")
         ++ u ", recipients=["
         ++ join (u ", ") (mask <$> [(u "b", u "example.com"); (u "c", u "example.ru")])
         ++ u "], status=" ++ Status_value (status email_ex) ++ u ")"), world_ex).
Proof.
  apply (Email_repr_format world_ex 2%positive email_ex (u "a", u "example.com")
           [(u "b", u "example.com"); (u "c", u "example.ru")]).
  - split; reflexivity.
  - reflexivity.
  - split; by apply not_contains.
  - repeat constructor; by apply not_contains.
Defined.

Example Email_repr_draft :
  (Email_repr 2%positive world_ex).1 =
    Ok (u "Email(subject='  Hi  ', sender=a***@example.com, recipients=[b***@example.com, c***@example.ru], status=draft)").
Proof. vm_compute. reflexivity. Qed.

(** ** LoggingEmailService.send_email *)

Example logging_send_draft :
  LoggingEmailService_send_email 2%positive world_ex [] =
    (LOk [3%positive; 6%positive], (send_email 2%positive world_ex).2,
     [u "Email sent from a@example.com to b@example.com. Subject:   Hi  . Status: failed";
      u "Email sent from a@example.com to c@example.ru. Subject:   Hi  . Status: failed"]).
Proof. vm_compute. reflexivity. Qed.

Lemma log_message_copy w e c rl r t :
  heap w !! c = Some (OEmail (sent_copy e rl t)) ->
  heap w !! rl = Some (OList [r]) ->
  log_message w c =
    match address_of (sender e), address_of r with
    | Ok from, Ok to =>
        LOk (log_line from to (subject e)
               (if decide (status e = READY) then SENT else FAILED))
    | _, _ => LRaise (Exn AttributeError)
    end.
Proof.
  intros Hc Hrl. unfold log_message. rewrite Hc. cbn [sender recipients sent_copy].
  destruct (address_of (sender e)) as [from| |]; [|done..].
  rewrite Hrl. by destruct (address_of r).
Qed.

Lemma address_of_cases (v : pyval) :
  (exists a, v = PAddr a /\ address_of v = Ok (_address a))
  \/ (is_EmailAddress v = false /\ address_of v = Raise AttributeError).
Proof. destruct v; [left; by eexists | right; by split ..]. Qed.

(** The records written for the copies of the recipients [addrs], all of
    them addresses, which come first in the list of recipients. *)
Lemma log_all_prefix w e sa (rest : list pyval) (addrs : list EmailAddress) :
  sender e = PAddr sa ->
  forall D n cs log,
    sent e (clock w) (heap w) D n ((PAddr <$> addrs) ++ rest) cs ->
    exists cs2 D' n',
      sent e (clock w) (heap w) D' n' rest cs2
      /\ log_all w cs log =
           log_all w cs2
             (log ++ ((fun a => log_line (_address sa) (_address a) (subject e)
                                  (if decide (status e = READY) then SENT else FAILED))
                      <$> addrs)).
Proof.
  intros Hs. induction addrs as [|a addrs IH]; intros D n cs log Hsent.
  - exists cs, D, n. by rewrite app_nil_r.
  - rewrite fmap_cons in Hsent. simpl in Hsent.
    inversion Hsent as [|D0 n0 r rs c cs' rl Hc Hrl Hne Hhc Hhrl Htail]; subst.
    destruct (IH _ _ _ (log ++ [log_line (_address sa) (_address a) (subject e)
                                 (if decide (status e = READY) then SENT else FAILED)])
                Htail) as (cs2 & D' & n' & Hs2 & Hlog).
    exists cs2, D', n'. split; [done|].
    cbn [log_all]. rewrite (log_message_copy w e c rl (PAddr a) _ Hhc Hhrl), Hs.
    cbn [address_of]. rewrite Hlog, fmap_cons. by rewrite <- app_assoc.
Qed.

(** X14: when the sender and all the recipients are [EmailAddress]
    instances, the logging service returns what [send_email] returns,
    leaves the store as [send_email] leaves it, and appends one record for
    each recipient, in order, with the unmasked addresses of the sender
    and of that recipient, the subject and the status of the copy. *)
Theorem logging_send_email_records w l e sa (addrs : list EmailAddress) log :
  email_at w l e (PAddr <$> addrs) ->
  sender e = PAddr sa ->
  exists cs w',
    send_email l w = (Ok cs, w')
    /\ LoggingEmailService_send_email l w log =
         (LOk cs, w',
          log ++ ((fun a => log_line (_address sa) (_address a) (subject e)
                              (if decide (status e = READY) then SENT else FAILED))
                  <$> addrs)).
Proof.
  intros Hat Hs.
  destruct (send_email_spec w l e _ Hat) as (cs & w' & Hrun & _ & Hclk & _ & Hsent & _).
  exists cs, w'. split; [done|].
  unfold LoggingEmailService_send_email. rewrite Hrun.
  rewrite <- Hclk in Hsent. rewrite <- (app_nil_r (PAddr <$> addrs)) in Hsent.
  destruct (log_all_prefix w' e sa [] addrs Hs _ _ _ log Hsent)
    as (cs2 & D' & n' & Hs2 & ->).
  inversion Hs2; subst. done.
Qed.

Lemma logging_send_email_records_witness :
  exists cs w',
    send_email 2%positive world_ex = (Ok cs, w')
    /\ LoggingEmailService_send_email 2%positive world_ex [u "earlier"] =
         (LOk cs, w',
          [u "earlier"]
          ++ ((fun a => log_line (u "a@example.com") (_address a) (subject email_ex)
                          (if decide (status email_ex = READY) then SENT else FAILED))
              <$> [ {| _address := u "b@example.com" |};
                    {| _address := u "c@example.ru" |} ])).
Proof.
  apply (logging_send_email_records world_ex 2%positive email_ex
           {| _address := u "a@example.com" |}
           [ {| _address := u "b@example.com" |}; {| _address := u "c@example.ru" |} ]
           [u "earlier"]).
  - split; reflexivity.
  - reflexivity.
Defined.

(** X15: when the first recipient that is not an [EmailAddress] comes
    after k addresses, the logging service raises [AttributeError] after
    it has written the records of those k; the copies of all the
    recipients are in the store by then, and the caller gets none. *)
Theorem logging_send_email_bad_recipient w l e sa (addrs : list EmailAddress)
    (r : pyval) (rest : list pyval) log :
  email_at w l e ((PAddr <$> addrs) ++ r :: rest) ->
  sender e = PAddr sa ->
  is_EmailAddress r = false ->
  exists cs w',
    send_email l w = (Ok cs, w')
    /\ length cs = S (length addrs + length rest)
    /\ LoggingEmailService_send_email l w log =
         (LRaise (Exn AttributeError), w',
          log ++ ((fun a => log_line (_address sa) (_address a) (subject e)
                              (if decide (status e = READY) then SENT else FAILED))
                  <$> addrs)).
Proof.
  intros Hat Hs Hr.
  destruct (send_email_spec w l e _ Hat) as (cs & w' & Hrun & _ & Hclk & _ & Hsent & _).
  exists cs, w'. split; [done|]. split.
  { rewrite (sent_length _ _ _ _ _ _ _ Hsent), length_app, length_fmap. simpl. lia. }
  unfold LoggingEmailService_send_email. rewrite Hrun.
  rewrite <- Hclk in Hsent.
  destruct (log_all_prefix w' e sa (r :: rest) addrs Hs _ _ _ log Hsent)
    as (cs2 & D' & n' & Hs2 & ->).
  inversion Hs2 as [|D0 n0 r0 rs c cs' rl Hc Hrl Hne Hhc Hhrl Htail]; subst.
  cbn [log_all]. rewrite (log_message_copy w' e c rl r _ Hhc Hhrl), Hs.
  cbn [address_of]. destruct (address_of_cases r) as [(a & -> & _) | [_ ->]]; done.
Qed.

Lemma logging_send_email_bad_recipient_witness :
  exists cs w',
    send_email 2%positive
      (with_heap (<[1%positive := OList [addr "b@example.com"; PNone]]> (heap world_ex))
         world_ex) = (Ok cs, w')
    /\ length cs = S (length [ {| _address := u "b@example.com" |} ] + length (@nil pyval))
    /\ LoggingEmailService_send_email 2%positive
         (with_heap (<[1%positive := OList [addr "b@example.com"; PNone]]> (heap world_ex))
            world_ex) [] =
         (LRaise (Exn AttributeError), w',
          [] ++ ((fun a => log_line (u "a@example.com") (_address a) (subject email_ex)
                             (if decide (status email_ex = READY) then SENT else FAILED))
                 <$> [ {| _address := u "b@example.com" |} ])).
Proof.
  apply (logging_send_email_bad_recipient
           (with_heap (<[1%positive := OList [addr "b@example.com"; PNone]]> (heap world_ex))
              world_ex)
           2%positive email_ex {| _address := u "a@example.com" |}
           [ {| _address := u "b@example.com" |} ] PNone [] []).
  - split; reflexivity.
  - reflexivity.
  - reflexivity.
Defined.

(** X16: with a sender that is not an [EmailAddress] (None, say) the
    logging service writes nothing: for an empty list of recipients it
    returns the empty list, and otherwise it raises [AttributeError] at the
    first copy, after [send_email] has made the copies. *)
Theorem logging_send_email_bad_sender w l e items log :
  email_at w l e items ->
  is_EmailAddress (sender e) = false ->
  exists cs w',
    send_email l w = (Ok cs, w')
    /\ length cs = length items
    /\ LoggingEmailService_send_email l w log =
         (match items with
          | [] => LOk []
          | _ :: _ => LRaise (Exn AttributeError)
          end, w', log).
Proof.
  intros Hat Hs.
  destruct (send_email_spec w l e _ Hat) as (cs & w' & Hrun & _ & Hclk & _ & Hsent & _).
  exists cs, w'. split; [done|]. split; [by eapply sent_length|].
  unfold LoggingEmailService_send_email. rewrite Hrun.
  inversion Hsent as [|D0 n0 r0 rs c cs' rl Hc Hrl Hne Hhc Hhrl Htail]; subst; [done|].
  cbn [log_all]. rewrite (log_message_copy w' e c rl r0 _ Hhc Hhrl).
  destruct (address_of_cases (sender e)) as [(a & E & _) | [_ ->]]; [|done].
  rewrite E in Hs. discriminate.
Qed.

Lemma logging_send_email_bad_sender_witness :
  exists cs w',
    send_email 2%positive
      (with_heap (<[2%positive := OEmail {| subject := u "Hi"; body := u "text";
                                            sender := PNone; recipients := 1%positive;
                                            date := 0%Z; short_body := [];
                                            status := DRAFT |}]> (heap world_ex))
         world_ex) = (Ok cs, w')
    /\ length cs = length items_ex
    /\ LoggingEmailService_send_email 2%positive
         (with_heap (<[2%positive := OEmail {| subject := u "Hi"; body := u "text";
                                               sender := PNone; recipients := 1%positive;
                                               date := 0%Z; short_body := [];
                                               status := DRAFT |}]> (heap world_ex))
            world_ex) [u "earlier"] =
         (LRaise (Exn AttributeError), w', [u "earlier"]).
Proof.
  apply (logging_send_email_bad_sender
           (with_heap (<[2%positive := OEmail {| subject := u "Hi"; body := u "text";
                                                 sender := PNone; recipients := 1%positive;
                                                 date := 0%Z; short_body := [];
                                                 status := DRAFT |}]> (heap world_ex))
              world_ex)
           2%positive
           {| subject := u "Hi"; body := u "text"; sender := PNone;
              recipients := 1%positive; date := 0%Z; short_body := [];
              status := DRAFT |}
           items_ex [u "earlier"]).
  - split; reflexivity.
  - reflexivity.
Defined.

Lemma log_all_outcome w e :
  forall D n rs cs, sent e (clock w) (heap w) D n rs cs ->
  forall log, exists new,
    (log_all w cs log = (None, log ++ new) /\ length new = length rs)
    \/ (log_all w cs log = (Some (Exn AttributeError), log ++ new)
        /\ (length new < length rs)%nat).
Proof.
  induction 1 as [|D n r rs c cs rl Hc Hrl Hne Hhc Hhrl _ IH]; intros log.
  - exists []. left. by rewrite app_nil_r.
  - cbn [log_all]. rewrite (log_message_copy w e c rl r _ Hhc Hhrl).
    destruct (address_of (sender e)) as [from| |] eqn:Ef.
    2:{ exists []. right. rewrite app_nil_r. split; [done | simpl; lia]. }
    2:{ by destruct (address_of_cases (sender e)) as [(a & _ & E) | [_ E]]; rewrite E in Ef. }
    destruct (address_of r) as [to| |] eqn:Er.
    2:{ exists []. right. rewrite app_nil_r. split; [done | simpl; lia]. }
    2:{ by destruct (address_of_cases r) as [(a & _ & E) | [_ E]]; rewrite E in Er. }
    destruct (IH (log ++ [log_line from to (subject e)
                            (if decide (status e = READY) then SENT else FAILED)]))
      as [new [[-> Hlen] | [-> Hlen]]];
      eexists (_ :: new); rewrite <- app_assoc; [left | right];
      (split; [done | simpl; lia]).
Qed.

(** X17: on a message of the store the logging service ends in one of two
    ways: it returns the copies [send_email] made, with one record added
    for each recipient, or it raises [AttributeError] with fewer records
    added; it never raises [IndexError]. Either way the store is the one
    [send_email] leaves, and the records that were there are kept, in
    order, before the new ones. *)
Theorem logging_send_email_outcomes w l e items log :
  email_at w l e items ->
  exists cs w' new,
    send_email l w = (Ok cs, w')
    /\ ((LoggingEmailService_send_email l w log = (LOk cs, w', log ++ new)
         /\ length new = length items)
        \/ (LoggingEmailService_send_email l w log
              = (LRaise (Exn AttributeError), w', log ++ new)
            /\ (length new < length items)%nat)).
Proof.
  intros Hat.
  destruct (send_email_spec w l e _ Hat) as (cs & w' & Hrun & _ & Hclk & _ & Hsent & _).
  rewrite <- Hclk in Hsent.
  destruct (log_all_outcome w' e _ _ _ _ Hsent log) as [new [[Hl Hlen] | [Hl Hlen]]];
    exists cs, w', new; (split; [done|]);
    unfold LoggingEmailService_send_email; rewrite Hrun, Hl; [left | right]; done.
Qed.

Lemma logging_send_email_outcomes_witness :
  exists cs w' new,
    send_email 2%positive world_ex = (Ok cs, w')
    /\ ((LoggingEmailService_send_email 2%positive world_ex [u "earlier"]
           = (LOk cs, w', [u "earlier"] ++ new)
         /\ length new = length items_ex)
        \/ (LoggingEmailService_send_email 2%positive world_ex [u "earlier"]
              = (LRaise (Exn AttributeError), w', [u "earlier"] ++ new)
            /\ (length new < length items_ex)%nat)).
Proof.
  apply (logging_send_email_outcomes world_ex 2%positive email_ex items_ex [u "earlier"]).
  split; reflexivity.
Defined.

(** * Copies and sharing: the service with identities *)

Import Identity.

Lemma val_nested_ind (P : val -> Prop) :
  (forall id a, P (VAddr id a)) -> P VNone -> (forall b, P (VBool b)) ->
  (forall z, P (VInt z)) -> (forall s, P (VStr s)) ->
  (forall id items, Forall P items -> P (VList id items)) ->
  (forall items, Forall P items -> P (VTuple items)) ->
  forall v, P v.
Proof.
  intros HA HN HB HI HS HL HT.
  fix IH 1. intros [id a| |b|z|s|id items|items].
  - apply HA.
  - apply HN.
  - apply HB.
  - apply HI.
  - apply HS.
  - apply HL. induction items as [|x xs IHxs]; constructor; [apply IH | apply IHxs].
  - apply HT. induction items as [|x xs IHxs]; constructor; [apply IH | apply IHxs].
Qed.

Lemma grows_refl (w : world) : grows w w.
Proof. by repeat split. Qed.

Lemma grows_trans (w1 w2 w3 : world) : grows w1 w2 -> grows w2 w3 -> grows w1 w3.
Proof.
  intros (H1 & H2 & H3 & H4) (G1 & G2 & G3 & G4).
  split; [by etrans|]. split; [congruence|]. split; [congruence|]. eauto.
Qed.

Lemma grows_alloc (w : world) (o : object) :
  (forall em, o <> OEmail em) ->
  grows w (with_heap (<[fresh (dom (heap w)) := o]> (heap w)) w).
Proof.
  intros Ho. split; [|split; [done|split; [done|]]].
  - apply insert_subseteq. apply not_elem_of_dom, is_fresh.
  - intros k ek. simpl. destruct (decide (k = fresh (dom (heap w)))) as [->|Hk].
    + rewrite lookup_insert_eq. intros [= ->]. by destruct (Ho ek).
    + by rewrite lookup_insert_ne.
Qed.

Lemma memo_new_grows D memo (w w' : world) :
  grows w w' -> memo_new D memo (heap w) -> memo_new D memo (heap w').
Proof.
  intros (Hsub & _) Hm i i' Hi. destruct (Hm i i' Hi) as [H1 H2].
  split; [done|]. by apply (subseteq_dom _ _ Hsub).
Qed.

Lemma copy_ok_items D (items : list val) :
  Forall (copy_ok D) items ->
  forall memo (w : world) items' memo' (w' : world),
    D ⊆ dom (heap w) -> memo_new D memo (heap w) ->
    map_acc deepcopy_val items (memo, w) = (items', (memo', w')) ->
    grows w w' /\ memo_new D memo' (heap w')
    /\ map content items' = map content items
    /\ (forall x, x ∈ concat (map ids items') -> (x ∉ D) /\ x ∈ dom (heap w')).
Proof.
  induction 1 as [|v vs Hv _ IH]; intros memo w items' memo' w' HD Hm Hrun.
  - injection Hrun as <- <- <-. split; [apply grows_refl|]. split; [done|].
    split; [done|]. by intros x ?%elem_of_nil.
  - cbn [map_acc] in Hrun.
    destruct (deepcopy_val v (memo, w)) as [v' [memo1 w1]] eqn:E1.
    fold (@map_acc (gmap loc loc * world) val val deepcopy_val) in Hrun.
    destruct (map_acc deepcopy_val vs (memo1, w1)) as [vs' [memo2 w2]] eqn:E2.
    injection Hrun as <- <- <-.
    destruct (Hv _ _ _ _ _ HD Hm E1) as (G1 & M1 & C1 & I1).
    assert (HD1 : D ⊆ dom (heap w1)).
    { destruct G1 as [Hsub _]. apply subseteq_dom in Hsub. set_solver. }
    destruct (IH _ _ _ _ _ HD1 M1 E2) as (G2 & M2 & C2 & I2).
    split; [by eapply grows_trans|]. split; [done|].
    split; [simpl; by rewrite C1, C2|].
    intros x. simpl. rewrite elem_of_app. intros [Hx|Hx]; [|by apply I2].
    destruct (I1 x Hx) as [? Hd]. split; [done|].
    destruct G2 as [Hsub _]. by apply (subseteq_dom _ _ Hsub).
Qed.

Lemma deepcopy_val_ok D (v : val) : copy_ok D v.
Proof.
  induction v as [id a| |b|z|s|id items IH|items IH] using val_nested_ind;
    intros memo w v' memo' w' HD Hm Hrun; cbn [deepcopy_val fst snd] in Hrun.
  - destruct (memo !! id) as [id'|] eqn:Eid.
    + injection Hrun as <- <- <-. destruct (Hm _ _ Eid) as [H1 H2].
      split; [apply grows_refl|]. split; [done|]. split; [done|].
      by intros x ->%list_elem_of_singleton.
    + injection Hrun as <- <- <-.
      set (id' := fresh (dom (heap w))).
      assert (Hf : id' ∉ dom (heap w)) by apply is_fresh.
      assert (G : grows w (with_heap (<[id' := OAddr a]> (heap w)) w))
        by by apply grows_alloc.
      split; [done|]. split; [|split; [done|]].
      * intros i i'. destruct (decide (i = id)) as [->|Hne].
        -- rewrite lookup_insert_eq. intros [= <-]. split; [set_solver|].
           simpl. rewrite dom_insert_L. set_solver.
        -- rewrite lookup_insert_ne by done. intros Hi.
           by apply (memo_new_grows D memo w _ G Hm i i').
      * intros x ->%list_elem_of_singleton. split; [set_solver|].
        simpl. rewrite dom_insert_L. set_solver.
  - injection Hrun as <- <- <-. split; [apply grows_refl|]. split; [done|].
    split; [done|]. by intros x ?%elem_of_nil.
  - injection Hrun as <- <- <-. split; [apply grows_refl|]. split; [done|].
    split; [done|]. by intros x ?%elem_of_nil.
  - injection Hrun as <- <- <-. split; [apply grows_refl|]. split; [done|].
    split; [done|]. by intros x ?%elem_of_nil.
  - injection Hrun as <- <- <-. split; [apply grows_refl|]. split; [done|].
    split; [done|]. by intros x ?%elem_of_nil.
  - destruct (memo !! id) as [id'|] eqn:Eid.
    + destruct (map_acc deepcopy_val items (memo, w)) as [items' [memo1 w1]] eqn:E.
      injection Hrun as <- <- <-.
      destruct (copy_ok_items D items IH _ _ _ _ _ HD Hm E) as (G & M & C & I).
      split; [done|]. split; [done|]. split; [simpl; by rewrite C|].
      intros x [->|Hx]%elem_of_cons; [|by apply I].
      destruct (Hm _ _ Eid) as [H1 H2]. split; [done|].
      destruct G as [Hsub _]. by apply (subseteq_dom _ _ Hsub).
    + set (id' := fresh (dom (heap w))) in *.
      assert (Hf : id' ∉ dom (heap w)) by apply is_fresh.
      set (w0 := with_heap (<[id' := OList []]> (heap w)) w) in *.
      assert (G0 : grows w w0) by by apply grows_alloc.
      destruct (map_acc deepcopy_val items (<[id := id']> memo, w0))
        as [items' [memo1 w1]] eqn:E.
      injection Hrun as <- <- <-. cbn [fst snd].
      assert (HD0 : D ⊆ dom (heap w0)).
      { unfold w0. simpl. rewrite dom_insert_L. set_solver. }
      assert (M0 : memo_new D (<[id := id']> memo) (heap w0)).
      { intros i i'. destruct (decide (i = id)) as [->|Hne].
        - rewrite lookup_insert_eq. intros [= <-]. split; [set_solver|].
          unfold w0. simpl. rewrite dom_insert_L. set_solver.
        - rewrite lookup_insert_ne by done. intros Hi.
          by apply (memo_new_grows D memo w _ G0 Hm i i'). }
      destruct (copy_ok_items D items IH _ _ _ _ _ HD0 M0 E) as (G & M & C & I).
      assert (Hin : id' ∈ dom (heap w1)).
      { destruct G as [Hsub _]. apply (subseteq_dom _ _ Hsub).
        unfold w0. simpl. rewrite dom_insert_L. set_solver. }
      assert (Hdom : dom (<[id' := OList items']> (heap w1)) = dom (heap w1)).
      { rewrite dom_insert_L. set_solver. }
      split; [|split; [|split; [simpl; by rewrite C|]]].
      * destruct G0 as (S0 & C0 & T0 & E0), G as (S1 & C1 & T1 & E1).
        split; [|split; [simpl; congruence|split; [simpl; congruence|]]].
        -- simpl. apply insert_subseteq_r; [by apply not_elem_of_dom|].
           etrans; [|exact S1]. unfold w0. simpl.
           apply insert_subseteq. by apply not_elem_of_dom.
        -- intros k ek. simpl. destruct (decide (k = id')) as [->|Hk].
           ++ by rewrite lookup_insert_eq.
           ++ rewrite lookup_insert_ne by done. intros H1%E1. by apply E0.
      * intros i i' Hi. destruct (M i i' Hi) as [H1 H2]. split; [done|].
        simpl. by rewrite Hdom.
      * intros x [->|Hx]%elem_of_cons.
        -- split; [set_solver|]. simpl. by rewrite Hdom.
        -- destruct (I x Hx) as [H1 H2]. split; [done|]. simpl. by rewrite Hdom.
  - destruct (map_acc deepcopy_val items (memo, w)) as [items' [memo1 w1]] eqn:E.
    injection Hrun as <- <- <-.
    destruct (copy_ok_items D items IH _ _ _ _ _ HD Hm E) as (G & M & C & I).
    split; [done|]. split; [done|]. split; [simpl; by rewrite C|]. exact I.
Qed.

Lemma id_bind_Ok {A B} (m : M A) (k : A -> M B) (w : world) a (w1 : world) :
  m w = (Ok a, w1) -> bind m k w = k a w1.
Proof. unfold bind. by intros ->. Qed.

Lemma id_bind_assoc {A B C} (m : M A) (k1 : A -> M B) (k2 : B -> M C) (w : world) :
  bind (bind m k1) k2 w = bind m (fun a => bind (k1 a) k2) w.
Proof. unfold bind. destruct (m w) as [[a| |] w1]; [|done..]. done. Qed.

Lemma id_get_email_Ok (w : world) l (em : Email) :
  heap w !! l = Some (OEmail em) -> get_email l w = (Ok em, w).
Proof. unfold get_email. by intros ->. Qed.

Lemma id_get_list_Ok (w : world) l (items : list val) :
  heap w !! l = Some (OList items) -> get_list l w = (Ok items, w).
Proof. unfold get_list. by intros ->. Qed.

Lemma id_setattr_Ok (w : world) l (em : Email) f :
  heap w !! l = Some (OEmail em) ->
  setattr l f w = (Ok tt, with_heap (<[l := OEmail (f em)]> (heap w)) w).
Proof. unfold setattr. by intros ->. Qed.

Tactic Notation "istep" "by" tactic3(t) :=
  rewrite ?id_bind_assoc; erewrite id_bind_Ok; [| t].

Lemma deepcopy_spec (w : world) x (em : Email) (items : list val) :
  email_at w x em items ->
  exists y rl s' (w' : world),
    deepcopy x w = (Ok y, w')
    /\ heap w ⊆ heap w'
    /\ clock w' = clock w /\ ticks w' = ticks w
    /\ (forall k ek, heap w' !! k = Some (OEmail ek) ->
          k = y \/ heap w !! k = Some (OEmail ek))
    /\ (y ∉ dom (heap w))
    /\ heap w' !! y = Some (OEmail (set_recipients rl (set_sender s' em)))
    /\ content s' = content (sender em)
    /\ (forall i, i ∈ ids s' -> (i ∉ dom (heap w)) /\ i <> y /\ i ∈ dom (heap w')).
Proof.
  intros [He Hl].
  destruct (deepcopy x w) as [res wr] eqn:Hrun. revert Hrun. unfold deepcopy.
  istep by (by apply id_get_email_Ok). istep by (by apply id_get_list_Ok).
  set (y := fresh (dom (heap w))).
  assert (Hy : y ∉ dom (heap w)) by apply is_fresh.
  set (w1 := with_heap (<[y := OEmail em]> (heap w)) w).
  set (D := dom (heap w1)).
  assert (HDy : D = {[y]} ∪ dom (heap w)) by (unfold D, w1; simpl; apply dom_insert_L).
  destruct (deepcopy_val (sender em) (∅, w1)) as [s' [memo1 ws]] eqn:E1.
  destruct (deepcopy_val_ok D (sender em) ∅ w1 s' memo1 ws) as (G1 & M1 & C1 & I1);
    [done | by intros i i' ?%lookup_empty_Some | done |].
  cbn [fst snd].
  set (rl := fresh (dom (heap ws))).
  assert (Hrl : rl ∉ dom (heap ws)) by apply is_fresh.
  set (w2 := with_heap (<[rl := OList []]> (heap ws)) ws).
  assert (G12 : grows ws w2) by by apply grows_alloc.
  assert (HDs : D ⊆ dom (heap ws)).
  { destruct G1 as [Hsub _]. by apply subseteq_dom in Hsub. }
  assert (HD2 : D ⊆ dom (heap w2)).
  { unfold w2. simpl. rewrite dom_insert_L. set_solver. }
  assert (M2 : memo_new D (<[recipients em := rl]> memo1) (heap w2)).
  { intros i i'. destruct (decide (i = recipients em)) as [->|Hne].
    - rewrite lookup_insert_eq. intros [= <-]. split; [set_solver|].
      unfold w2. simpl. rewrite dom_insert_L. set_solver.
    - rewrite lookup_insert_ne by done. intros Hi.
      by apply (memo_new_grows D memo1 ws _ G12 M1 i i'). }
  destruct (map_acc deepcopy_val items (<[recipients em := rl]> memo1, w2))
    as [items' [memo3 w3]] eqn:E2.
  assert (Hall : Forall (copy_ok D) items)
    by (apply Forall_forall; intros v _; apply deepcopy_val_ok).
  destruct (copy_ok_items D items Hall _ _ _ _ _ HD2 M2 E2) as (G3 & M3 & _ & _).
  cbn [fst snd]. intros [= <- <-]. exists y, rl, s'. eexists. split; [done|].
  cbn [heap clock ticks with_heap].
  destruct G1 as (S1 & C1' & T1 & N1), G12 as (S2 & C2' & T2 & N2),
    G3 as (S3 & C3' & T3 & N3).
  assert (Hyrl : y <> rl).
  { intros E. apply Hrl. rewrite <- E. apply HDs. rewrite HDy. set_solver. }
  assert (Hrl3 : rl ∈ dom (heap w3)).
  { apply (subseteq_dom _ _ S3). unfold w2. simpl. rewrite dom_insert_L. set_solver. }
  assert (Hsub13 : heap w1 ⊆ heap w3) by (etrans; [exact S1|]; etrans; [exact S2 | exact S3]).
  split.
  { apply map_subseteq_spec. intros k o Hk.
    assert (k <> y) by (intros ->; apply Hy; apply elem_of_dom; eauto).
    assert (Hk1 : heap w1 !! k = Some o) by (unfold w1; simpl; by rewrite lookup_insert_ne).
    assert (k <> rl).
    { intros ->. apply Hrl. apply (subseteq_dom _ _ S1). apply elem_of_dom. eauto. }
    rewrite !lookup_insert_ne by done.
    by apply (lookup_weaken _ _ _ _ Hk1 Hsub13). }
  split; [unfold w1 in *; simpl in *; congruence|].
  split; [unfold w1 in *; simpl in *; congruence|].
  split.
  { intros k ek Hk. destruct (decide (k = y)) as [->|Hky]; [by left | right].
    rewrite lookup_insert_ne in Hk by done.
    destruct (decide (k = rl)) as [->|Hkr]; [by rewrite lookup_insert_eq in Hk|].
    rewrite lookup_insert_ne in Hk by done.
    apply N3, N2, N1 in Hk. unfold w1 in Hk. simpl in Hk.
    by rewrite lookup_insert_ne in Hk. }
  split; [done|]. split; [apply lookup_insert_eq|]. split; [done|].
  intros i Hi. destruct (I1 i Hi) as [HiD His]. rewrite HDy in HiD.
  split; [set_solver|]. split; [set_solver|].
  rewrite !dom_insert_L. apply (subseteq_dom _ _ S2), (subseteq_dom _ _ S3) in His.
  set_solver.
Qed.

Lemma id_send_one_spec (w : world) l (em : Email) (items : list val) (r : val) :
  email_at w l em items ->
  exists y rl s' (w' : world),
    send_one l r w = (Ok y, w')
    /\ heap w ⊆ heap w'
    /\ (y ∉ dom (heap w)) /\ (rl ∉ dom (heap w)) /\ y <> rl
    /\ heap w' !! y = Some (OEmail (sent_copy em s' rl (clock w (ticks w))))
    /\ heap w' !! rl = Some (OList [r])
    /\ content s' = content (sender em)
    /\ (forall i, i ∈ ids s' ->
          (i ∉ dom (heap w)) /\ i <> y /\ i <> rl /\ i ∈ dom (heap w'))
    /\ clock w' = clock w /\ ticks w' = S (ticks w)
    /\ (forall k ek, heap w' !! k = Some (OEmail ek) ->
          k = y \/ heap w !! k = Some (OEmail ek)).
Proof.
  intros Hat.
  destruct (deepcopy_spec w l em items Hat)
    as (y & rl0 & s' & wd & Hcopy & Hsub & Hclk & Htk & Hnew & Hy & Hhy & Hc & Hids).
  destruct (send_one l r w) as [res wr] eqn:Hrun. revert Hrun. unfold send_one.
  istep by exact Hcopy. istep by reflexivity.
  set (rl := fresh (dom (heap wd))).
  assert (Hrl : rl ∉ dom (heap wd)) by apply is_fresh.
  assert (Hyrl : y <> rl).
  { intros E. apply Hrl. rewrite <- E. apply elem_of_dom. eauto. }
  set (h1 := <[rl := OList [r]]> (heap wd)).
  assert (H1y : h1 !! y = Some (OEmail (set_recipients rl0 (set_sender s' em)))).
  { unfold h1. by rewrite lookup_insert_ne. }
  istep by (apply id_setattr_Ok; exact H1y).
  istep by reflexivity.
  istep by (apply id_setattr_Ok; simpl; apply lookup_insert_eq).
  istep by (apply id_get_email_Ok; simpl; apply lookup_insert_eq).
  cbn [heap clock ticks with_heap set_date set_recipients set_sender status].
  rewrite !insert_insert_eq. unfold sent_copy. rewrite Hclk, Htk.
  assert (Hsub' : forall o, heap w ⊆ <[y := o]> h1).
  { intros o. apply insert_subseteq_r; [by apply not_elem_of_dom|].
    unfold h1. apply insert_subseteq_r; [|done].
    apply not_elem_of_dom. intros Hin. apply Hrl. by apply (subseteq_dom _ _ Hsub). }
  assert (Hrlw : rl ∉ dom (heap w)).
  { intros Hin. apply Hrl. by apply (subseteq_dom _ _ Hsub). }
  destruct (decide (status em = READY)) as [Hst|Hst];
    (istep by (apply id_setattr_Ok; simpl; apply lookup_insert_eq));
    intros [= <- <-]; exists y, rl, s'; eexists; (split; [reflexivity|]);
    cbn [heap clock ticks with_heap]; rewrite insert_insert_eq;
    (split; [apply Hsub'|]);
    (split; [done|]); (split; [done|]); (split; [done|]);
    (split; [apply lookup_insert_eq|]);
    (split; [rewrite lookup_insert_ne by done; apply lookup_insert_eq|]);
    (split; [done|]);
    (split; [intros i Hi; destruct (Hids i Hi) as (Hi1 & Hi2 & Hi3);
             split; [done|]; split; [done|];
             split; [by intros ->|]; rewrite !dom_insert_L; set_solver|]);
    (split; [done|]); (split; [done|]);
    intros k ek Hk; (destruct (decide (k = y)) as [->|Hky]; [by left | right]);
    rewrite lookup_insert_ne in Hk by done; unfold h1 in Hk;
    (destruct (decide (k = rl)) as [->|Hkr]; [by rewrite lookup_insert_eq in Hk|]);
    rewrite lookup_insert_ne in Hk by done;
    by destruct (Hnew k ek Hk).
Qed.

Lemma id_sent_anti (em : Email) clk (h' : gmap loc object) D D' n rs cs :
  D ⊆ D' -> sent em clk h' D' n rs cs -> sent em clk h' D n rs cs.
Proof.
  intros HD Hs. revert D HD.
  induction Hs as [|D' n r rs c cs rl s' Hc Hrl Hne Hct Hids Hhc Hhrl _ IH];
    intros D0 HD.
  - constructor.
  - apply sent_cons with (rl := rl) (s' := s'); try done.
    + set_solver.
    + set_solver.
    + intros x Hx. destruct (Hids x Hx) as (H1 & H2 & H3). split; [set_solver | done].
    + apply IH. set_solver.
Qed.

Lemma id_email_at_weaken (w w' : world) l (em : Email) (items : list val) :
  heap w ⊆ heap w' -> email_at w l em items -> email_at w' l em items.
Proof. intros Hsub [He Hl]. split; by eapply lookup_weaken. Qed.

Lemma id_send_loop_spec l (em : Email) (items : list val) fuel :
  forall i acc (w : world),
  email_at w l em items ->
  (i <= length items)%nat -> (length items < fuel + i)%nat ->
  exists cs (w' : world),
    send_loop fuel l (recipients em) i acc w = (Ok (acc ++ cs), w')
    /\ heap w ⊆ heap w'
    /\ sent em (clock w) (heap w') (dom (heap w)) (ticks w) (drop i items) cs.
Proof.
  induction fuel as [|fuel IH]; intros i acc w Hat Hi Hfuel; [lia|].
  destruct (send_loop (S fuel) l (recipients em) i acc w) as [res wr] eqn:Hs.
  revert Hs. cbn [send_loop]. pose proof Hat as [He Hl].
  istep by (by apply id_get_list_Ok).
  destruct (items !! i) as [r|] eqn:Hr.
  - destruct (id_send_one_spec w l em items r Hat)
      as (y & rl & s' & w1 & Hone & Hsub & Hy & Hrl & Hne & Hhy & Hhrl & Hct & Hids
          & Hclk & Htk & _).
    istep by exact Hone.
    destruct (IH (S i) (acc ++ [y]) w1) as (cs & w' & Hloop & Hsub' & Hsent).
    { by eapply id_email_at_weaken. }
    { apply lookup_lt_Some in Hr. lia. }
    { lia. }
    rewrite Hloop. intros [= <- <-]. exists (y :: cs), w'.
    split; [by rewrite <- app_assoc|]. split; [by etrans|].
    rewrite (drop_S _ _ _ Hr).
    apply sent_cons with (rl := rl) (s' := s'); try done.
    + intros x Hx. destruct (Hids x Hx) as (H1 & H2 & H3 & _). done.
    + eapply lookup_weaken; [|exact Hsub']. exact Hhy.
    + eapply lookup_weaken; [|exact Hsub']. exact Hhrl.
    + rewrite Hclk, Htk in Hsent. eapply id_sent_anti; [|exact Hsent].
      apply subseteq_dom in Hsub.
      assert (y ∈ dom (heap w1)) by (apply elem_of_dom; eauto).
      assert (rl ∈ dom (heap w1)) by (apply elem_of_dom; eauto).
      intros x. rewrite !elem_of_union, elem_of_list_to_set.
      intros [[Hx|Hx]|Hx]; [set_solver | by apply Hids | set_solver].
  - intros [= <- <-]. exists [], w.
    split; [by rewrite app_nil_r|]. split; [done|].
    apply lookup_ge_None in Hr. rewrite drop_ge by done. constructor.
Qed.

Lemma id_send_email_spec (w : world) l (em : Email) (items : list val) :
  email_at w l em items ->
  exists cs (w' : world),
    send_email l w = (Ok cs, w')
    /\ heap w ⊆ heap w'
    /\ sent em (clock w) (heap w') (dom (heap w)) (ticks w) items cs.
Proof.
  intros Hat. pose proof Hat as [He Hl].
  destruct (id_send_loop_spec l em items (S (length items)) 0 [] w Hat)
    as (cs & w' & Hloop & H); [lia | lia |].
  exists cs, w'. split; [|exact H].
  unfold send_email.
  istep by (by apply id_get_email_Ok). istep by (by apply id_get_list_Ok).
  exact Hloop.
Qed.

Lemma id_sent_length (em : Email) clk (h' : gmap loc object) D n rs cs :
  sent em clk h' D n rs cs -> length cs = length rs.
Proof. induction 1; simpl; congruence. Qed.

(** The objects a copy owns are new, and no two copies own a common
    object. *)
Lemma id_sent_own (em : Email) clk (h' : gmap loc object) D n rs cs :
  sent em clk h' D n rs cs ->
  (forall c x, c ∈ cs -> x ∈ own_objects h' c -> x ∉ D)
  /\ (forall i j ci cj x, cs !! i = Some ci -> cs !! j = Some cj -> i <> j ->
        x ∈ own_objects h' ci -> x ∉ own_objects h' cj).
Proof.
  induction 1 as [|D n r rs c cs rl s' Hc Hrl Hne Hct Hids Hhc Hhrl _ [IH1 IH2]].
  - split; [by intros c x ?%elem_of_nil | by intros i j ci cj x ?].
  - assert (Hown : forall x, x ∈ own_objects h' c <-> x = c \/ x = rl \/ x ∈ ids s').
    { intros x. unfold own_objects. rewrite Hhc. cbn [recipients sender sent_copy].
      by rewrite !elem_of_cons. }
    assert (Hrest : forall c' x, c' ∈ cs -> x ∈ own_objects h' c' ->
              (x ∉ own_objects h' c) /\ (x ∉ D)).
    { intros c' x Hc' Hx. pose proof (IH1 c' x Hc' Hx) as Hnot.
      split; [|set_solver]. intros [->|[->|Hi]]%Hown.
      - set_solver.
      - set_solver.
      - apply Hnot. rewrite !elem_of_union, elem_of_list_to_set. by left; right. }
    split.
    + intros c' x [->|Hc']%elem_of_cons Hx.
      * apply Hown in Hx as [->|[->|Hx]]; [done | done | by apply Hids].
      * by destruct (Hrest c' x Hc' Hx).
    + intros [|i] [|j] ci cj x Hi Hj Hij Hx; simpl in Hi, Hj.
      * done.
      * injection Hi as <-. intros Hx'.
        destruct (Hrest cj x (list_elem_of_lookup_2 _ _ _ Hj) Hx') as [Hn _].
        by apply Hn.
      * injection Hj as <-.
        by destruct (Hrest ci x (list_elem_of_lookup_2 _ _ _ Hi) Hx).
      * apply (IH2 i j ci cj x Hi Hj); [congruence | done].
Qed.

Lemma id_sent_lookup (em : Email) clk (h' : gmap loc object) D n rs cs i c :
  sent em clk h' D n rs cs -> cs !! i = Some c ->
  exists r rl s', rs !! i = Some r
    /\ h' !! c = Some (OEmail (sent_copy em s' rl (clk (n + i)%nat)))
    /\ h' !! rl = Some (OList [r])
    /\ content s' = content (sender em).
Proof.
  intros Hs. revert i.
  induction Hs as [|D n r rs c0 cs rl s' Hc Hrl Hne Hct Hids Hhc Hhrl _ IH]; intros i Hi.
  - done.
  - destruct i as [|i]; simpl in Hi.
    + injection Hi as <-. exists r, rl, s'. by rewrite Nat.add_0_r.
    + destruct (IH i Hi) as (r' & rl' & s'' & Hr' & Hhc' & Hhrl' & Hct').
      exists r', rl', s''. rewrite Nat.add_succ_r. simpl in Hhc'. done.
Qed.

(** C7, as amended: for a message with n recipients [send_email] returns n
    copies, in the order of the recipients.  The i-th copy has the
    subject, the body and the preview of the message, a sender that holds
    what the sender of the message holds, and a list of recipients that
    holds one element: the i-th recipient of the message, the object
    itself and not a copy of it, which the list of the message still
    holds.  The instance, the list of recipients and the objects of the
    sender of a copy are new objects, and no two copies have one of them
    in common. *)
Theorem send_email_copies_share_recipients (w : world) l (em : Email)
    (items : list val) :
  email_at w l em items ->
  exists cs (w' : world),
    send_email l w = (Ok cs, w')
    /\ length cs = length items
    /\ heap w' !! recipients em = Some (OList items)
    /\ (forall i r, items !! i = Some r ->
          exists c ec, cs !! i = Some c
            /\ heap w' !! c = Some (OEmail ec)
            /\ heap w' !! recipients ec = Some (OList [r])
            /\ subject ec = subject em /\ body ec = body em
            /\ short_body ec = short_body em
            /\ content (sender ec) = content (sender em))
    /\ (forall c x, c ∈ cs -> x ∈ own_objects (heap w') c -> x ∉ dom (heap w))
    /\ (forall i j ci cj x, cs !! i = Some ci -> cs !! j = Some cj -> i <> j ->
          x ∈ own_objects (heap w') ci -> x ∉ own_objects (heap w') cj).
Proof.
  intros Hat.
  destruct (id_send_email_spec w l em items Hat) as (cs & w' & Hrun & Hsub & Hsent).
  exists cs, w'. split; [done|].
  pose proof (id_sent_length _ _ _ _ _ _ _ Hsent) as Hlen.
  split; [done|]. destruct Hat as [He Hl].
  split; [by eapply lookup_weaken|].
  split; [|by eapply id_sent_own].
  intros i r Hr.
  destruct (lookup_lt_is_Some_2 cs i) as [c Hc].
  { rewrite Hlen. by eapply lookup_lt_Some. }
  destruct (id_sent_lookup _ _ _ _ _ _ _ _ _ Hsent Hc)
    as (r' & rl & s' & Hr' & Hhc & Hhrl & Hct).
  assert (r' = r) as -> by congruence.
  exists c. eexists. split; [done|]. split; [exact Hhc|]. by simpl.
Qed.

Lemma send_email_copies_share_recipients_witness :
  exists cs (w' : world),
    send_email 5%positive world_shared = (Ok cs, w')
    /\ length cs = length [inner_list]
    /\ heap w' !! recipients email_shared = Some (OList [inner_list])
    /\ (forall i r, [inner_list] !! i = Some r ->
          exists c ec, cs !! i = Some c
            /\ heap w' !! c = Some (OEmail ec)
            /\ heap w' !! recipients ec = Some (OList [r])
            /\ subject ec = subject email_shared /\ body ec = body email_shared
            /\ short_body ec = short_body email_shared
            /\ content (sender ec) = content (sender email_shared))
    /\ (forall c x, c ∈ cs -> x ∈ own_objects (heap w') c -> x ∉ dom (heap world_shared))
    /\ (forall i j ci cj x, cs !! i = Some ci -> cs !! j = Some cj -> i <> j ->
          x ∈ own_objects (heap w') ci -> x ∉ own_objects (heap w') cj).
Proof.
  apply (send_email_copies_share_recipients world_shared 5%positive email_shared
           [inner_list]).
  split; reflexivity.
Defined.

(** C7 as stated fails: the constructor takes a list whose element is
    itself a list, an object of the store; after [send_email] the copy is
    a new instance with a new list of recipients, and that list holds the
    same list object as the list of the message, so a list that can be
    written to through the copy can be written to through the message. *)
Lemma send_email_shares_list_recipient :
  (new_shared world_inner).1 = Ok 5%positive
  /\ heap world_shared !! 1%positive = Some (OList [VInt 1])
  /\ (send_email 5%positive world_shared).1 = Ok [6%positive]
  /\ mutable_objects (heap (send_email 5%positive world_shared).2) 6%positive
     = [6%positive; 10%positive; 1%positive]
  /\ mutable_objects (heap (send_email 5%positive world_shared).2) 5%positive
     = [5%positive; 4%positive; 1%positive].
Proof. vm_compute. repeat split. Qed.
